(** * Swapy: the assignment-synchronization adapter

    A shallow embedding of the adapter of [instance.ts] (structural
    validator, attribute tagger, registry builder, assignment synchronizer
    and live-tree watcher) over a store model of the DOM, together with the
    properties of its specification.

    The DOM is a store of nodes addressed by reference.  Every effect of the
    adapter is threaded through one [World]: the store itself, the trace of
    DOM writes, the console and the trace of host callbacks invoked.

    What lies outside the adapter is kept abstract: a host callback is a
    reference together with whether a call of it throws, and calling it is
    recorded; the engine is the source of the init and swap events and of
    the mutation batches, which are the arguments of the three handlers; the
    instance key [getUniqueId] makes is an argument of [createSwapy]. *)

From stdpp Require Import gmap strings list fin_maps.

Local Open Scope string_scope.
Local Open Scope list_scope.

(** ** The DOM store *)

(** Nodes are addressed by reference, a [nat]: two references are the same
    node exactly when they are equal. *)

Inductive NodeKind := ElementNode | TextNode.

(** A node: its kind, its [dataset] (the [data-*] attributes under their
    camel-case names, [data-swapy-slot] being ["swapySlot"]) and its child
    nodes in document order.  The parent of a node is the node that lists it. *)
Record Node := mkNode {
  nodeKind : NodeKind;
  dataset : gmap string string;
  childNodes : list nat
}.

Definition withDataset (d : gmap string string) (nd : Node) : Node :=
  mkNode (nodeKind nd) d (childNodes nd).

Definition withChildNodes (cs : list nat) (nd : Node) : Node :=
  mkNode (nodeKind nd) (dataset nd) cs.

Definition isElement (h : gmap nat Node) (n : nat) : bool :=
  match h !! n with
  | Some nd => match nodeKind nd with ElementNode => true | TextNode => false end
  | None => false
  end.

(** [el.dataset[key]]: [None] is JavaScript's [undefined]. *)
Definition getData (h : gmap nat Node) (el : nat) (key : string) : option string :=
  nd ← h !! el; dataset nd !! key.

(** [el.children]: the child nodes that are elements. *)
Definition children (h : gmap nat Node) (el : nat) : list nat :=
  match h !! el with
  | Some nd => filter (λ c, isElement h c = true) (childNodes nd)
  | None => []
  end.

(** The nodes below [n] in document order (pre-order), [n] itself excluded.
    The walk is bounded by [fuel] levels. *)
Fixpoint subtree (fuel : nat) (h : gmap nat Node) (n : nat) : list nat :=
  match fuel with
  | 0 => []
  | S k =>
      match h !! n with
      | Some nd => flat_map (λ c, c :: subtree k h c) (childNodes nd)
      | None => []
      end
  end.

(** A tree of [size h] nodes is at most [size h] levels deep. *)
Definition descendants (h : gmap nat Node) (n : nat) : list nat :=
  subtree (size h) h n.

(** The attribute selector [[data-key]]. *)
Definition hasData (h : gmap nat Node) (key : string) (el : nat) : bool :=
  isElement h el && bool_decide (is_Some (getData h el key)).

(** [root.querySelectorAll('[data-key]')]. *)
Definition querySelectorAll (h : gmap nat Node) (root : nat) (key : string) : list nat :=
  filter (λ el, hasData h key el = true) (descendants h root).

(** [root.querySelector('[data-key]')]: the first match, if any. *)
Definition querySelector (h : gmap nat Node) (root : nat) (key : string) : option nat :=
  head (querySelectorAll h root key).

(** JavaScript truthiness of a [string | null | undefined]: only a non-empty
    string is truthy. *)
Definition truthy (v : option string) : bool :=
  match v with
  | Some s => negb (bool_decide (s = ""))
  | None => false
  end.

(** ** Assignment maps and events *)

(** A JavaScript [Map<string, string | null>] is the list of its entries
    in insertion order.

    [map.get(key)]: [None] is [undefined], [Some None] is [null]. *)
Fixpoint Map_get (m : list (string * option string)) (key : string)
  : option (option string) :=
  match m with
  | [] => None
  | (k, v) :: m' => if decide (k = key) then Some v else Map_get m' key
  end.

(** [Array.from(map.keys())]. *)
Definition Map_keys (m : list (string * option string)) : list string := m.*1.

(** The swap event handed to the host: the candidate map and the rest of
    the engine's payload, which the adapter forwards untouched. *)
Record SwapEventData := mkSwapEvent {
  data_map : list (string * option string);
  data_rest : string
}.

(** [SwapCallback], the function the host registers.  It is host code: the
    adapter calls it with the event, and the call returns or throws; what
    else the host does in it is not the adapter's.  The reference tells one
    callback from another. *)
Record SwapCallback := mkSwapCallback {
  callbackRef : nat;
  callbackThrows : SwapEventData → bool
}.

(** ** The world *)

Inductive Mutation :=
| SetData (el : nat) (key value : string)
| ClearChildren (el : nat)
| AppendChild (parent child : nat).

Inductive Diagnostic :=
| NoSlots (root : nat)
| MissingSlotId (slot : nat)
| TooManyChildren (slotId : option string)
| UnlabeledChild (slotId : option string).

Record World := mkWorld {
  dom : gmap nat Node;
  mutations : list Mutation;
  console : list Diagnostic;
  invoked : list (SwapCallback * SwapEventData)
}.

Inductive Exn :=
| MissingRoot
| InvalidStructure
| HierarchyRequestError
| HostError.

Inductive Outcome (A : Type) :=
| Returned (a : A)
| Thrown (e : Exn).
Arguments Returned {A} a.
Arguments Thrown {A} e.

(** A computation reads and writes the world, and returns or throws.  What
    was written before a throw stays written. *)
Definition M (A : Type) : Type := World → World * Outcome A.

Definition ret {A} (a : A) : M A := λ w, (w, Returned a).

Definition bind {A B} (m : M A) (f : A → M B) : M B :=
  λ w, match m w with
       | (w', Returned a) => f a w'
       | (w', Thrown e) => (w', Thrown e)
       end.

Definition throw {A} (e : Exn) : M A := λ w, (w, Thrown e).

Notation "x ←← m ; f" := (bind m (λ x, f))
  (at level 100, m at next level, right associativity, only parsing).
Notation "m ;;; f" := (bind m (λ _, f))
  (at level 100, right associativity, only parsing).

(** [list.forEach(f)]. *)
Fixpoint forEach {A} (f : A → M unit) (l : list A) : M unit :=
  match l with
  | [] => ret tt
  | x :: l' => f x ;;; forEach f l'
  end.

Definition getDom : M (gmap nat Node) := λ w, (w, Returned (dom w)).

(** [console.error(...)]. *)
Definition consoleError (d : Diagnostic) : M unit :=
  λ w, (mkWorld (dom w) (mutations w) (console w ++ [d]) (invoked w), Returned tt).

(** [el.dataset[key] = value]. *)
Definition setData (el : nat) (key value : string) : M unit :=
  λ w, (mkWorld (alter (λ nd, withDataset (<[key := value]> (dataset nd)) nd) el (dom w))
                (mutations w ++ [SetData el key value]) (console w) (invoked w),
        Returned tt).

(** ** Structural validator *)

(** The body of the [forEach] of [validate]; [isValid] is the flag of the
    enclosing function. *)
Definition validateSlot (slot : nat) (isValid : bool) : M bool :=
  h ←← getDom;
  let slotId := getData h slot "swapySlot" in
  isValid ←← (if truthy slotId then ret isValid
              else consoleError (MissingSlotId slot) ;;; ret false);
  let slotChildren := children h slot in
  isValid ←← (if bool_decide (1 < length slotChildren)
              then consoleError (TooManyChildren slotId) ;;; ret false
              else ret isValid);
  match head slotChildren with
  | Some slotChild =>
      if truthy (getData h slotChild "swapyItem") then ret isValid
      else consoleError (UnlabeledChild slotId) ;;; ret false
  | None => ret isValid
  end.

Fixpoint validateSlots (slots : list nat) (isValid : bool) : M bool :=
  match slots with
  | [] => ret isValid
  | slot :: rest => isValid ←← validateSlot slot isValid; validateSlots rest isValid
  end.

Definition validate (root : nat) : M bool :=
  h ←← getDom;
  let slotElements := querySelectorAll h root "swapySlot" in
  isValid ←← (if bool_decide (length slotElements = 0)
              then consoleError (NoSlots root) ;;; ret false
              else ret true);
  validateSlots slotElements isValid.

(** ** Attribute tagger *)

Inductive AnimationType := dynamic | spring | none.

(** The options as the tagger gets them.  A field can hold [undefined],
    here [None]: [Partial<Config>] lets an option be present with the value
    [undefined], and the spread of [createSwapy] copies it over the
    default. *)
Record Config := mkConfig {
  animation : option AnimationType;
  continuousMode : option bool
}.

(** [Partial<Config>]: an option that is absent is [None], one that is
    present holds its value, which can be [undefined]. *)
Record PartialConfig := mkPartialConfig {
  userAnimation : option (option AnimationType);
  userContinuousMode : option (option bool)
}.

Definition DEFAULT_CONFIG : Config := mkConfig (Some dynamic) (Some true).

(** [{ ...DEFAULT_CONFIG, ...userConfig }]: every option that is present in
    [userConfig] replaces the default, whatever its value. *)
Definition mergeConfig (userConfig : PartialConfig) : Config :=
  mkConfig (default (animation DEFAULT_CONFIG) (userAnimation userConfig))
           (default (continuousMode DEFAULT_CONFIG) (userContinuousMode userConfig)).

Definition animationName (a : AnimationType) : string :=
  match a with dynamic => "dynamic" | spring => "spring" | none => "none" end.

(** A value stored in a [dataset] is converted to a string: [undefined]
    becomes ["undefined"]. *)
Definition toDataString (v : option string) : string := default "undefined" v.

(** The body of the [items.forEach] of [addVeloxiDataAttributes]. *)
Definition tagItemView (item : nat) : M unit :=
  setData item "velView" "item" ;;;
  h ←← getDom;
  setData item "velLayoutId" (toDataString (getData h item "swapyItem")) ;;;
  h ←← getDom;
  match querySelector h item "swapyHandle" with
  | Some handle => setData handle "velView" "handle"
  | None => ret tt
  end.

(** [pluginKey] is the value [getUniqueId()] returned. *)
Definition addVeloxiDataAttributes (root : nat) (config : Config) (pluginKey : string)
  : M string :=
  setData root "velPluginKey" pluginKey ;;;
  setData root "velPlugin" "Swapy" ;;;
  setData root "velView" "root" ;;;
  setData root "velDataConfigAnimation"
          (toDataString (animationName <$> animation config)) ;;;
  (if default false (continuousMode config)
   then setData root "velDataConfigContinuousMode" "true" else ret tt) ;;;
  h ←← getDom;
  forEach (λ slot, setData slot "velView" "slot") (querySelectorAll h root "swapySlot") ;;;
  h ←← getDom;
  forEach tagItemView (querySelectorAll h root "swapyItem") ;;;
  h ←← getDom;
  forEach (λ el, setData el "velLayoutPosition" "") (querySelectorAll h root "swapyText") ;;;
  h ←← getDom;
  forEach (λ el, setData el "velIgnore" "") (querySelectorAll h root "swapyExclude") ;;;
  ret pluginKey.

(** The body of the [items.forEach] of [resyncItems]. *)
Definition resyncItem (item : nat) : M unit :=
  tagItemView item ;;;
  h ←← getDom;
  forEach (λ el, setData el "velLayoutPosition" "") (querySelectorAll h item "swapyText") ;;;
  h ←← getDom;
  forEach (λ el, setData el "velIgnore" "") (querySelectorAll h item "swapyExclude").

(** The selector [[data-swapy-item]:not([data-vel-view])] (the source leaves
    the last parenthesis to the end of the selector, where it is closed). *)
Definition untaggedItems (h : gmap nat Node) (root : nat) : list nat :=
  filter (λ el, hasData h "velView" el = false) (querySelectorAll h root "swapyItem").

Definition resyncItems (root : nat) : M bool :=
  h ←← getDom;
  let items := untaggedItems h root in
  forEach resyncItem items ;;;
  ret (bool_decide (0 < length items)).

(** ** Registry builder *)

(** The [reduce] of [_createSlotElMap] and [_createItemElMap]: a later
    element overwrites the entry of an earlier one with the same id. *)
Definition registerEl (h : gmap nat Node) (key : string)
    (map : gmap string nat) (el : nat) : gmap string nat :=
  match getData h el key with
  | Some id => <[id := el]> map
  | None => map
  end.

Definition createElMap (h : gmap nat Node) (root : nat) (key : string) : gmap string nat :=
  foldl (registerEl h key) ∅ (querySelectorAll h root key).

(** ** Assignment synchronizer *)

Record Swapy := mkSwapy {
  _rootEl : nat;
  _slotElMap : gmap string nat;
  _itemElMap : gmap string nat;
  _swapCallback : option SwapCallback;
  _previousMap : option (list (string * option string))
}.

Definition _createSlotElMap (h : gmap nat Node) (rootEl : nat) := createElMap h rootEl "swapySlot".
Definition _createItemElMap (h : gmap nat Node) (rootEl : nat) := createElMap h rootEl "swapyItem".

(** The constructor; the two event subscriptions and the mutation observer
    it installs are [onInitEvent], [onSwapEvent] and [onMutations] below. *)
Definition newSwapy (rootEl : nat) : M Swapy :=
  h ←← getDom;
  ret (mkSwapy rootEl (_createSlotElMap h rootEl) (_createItemElMap h rootEl) None None).

Definition setSwapCallback (callback : SwapCallback) (this : Swapy) : Swapy :=
  mkSwapy (_rootEl this) (_slotElMap this) (_itemElMap this) (Some callback) (_previousMap this).

Definition setPreviousMap (map : list (string * option string)) (this : Swapy) : Swapy :=
  mkSwapy (_rootEl this) (_slotElMap this) (_itemElMap this) (_swapCallback this) (Some map).

Definition setRegistries (slots items : gmap string nat) (this : Swapy) : Swapy :=
  mkSwapy (_rootEl this) slots items (_swapCallback this) (_previousMap this).

(** [slot.innerHTML = '']: every child node is removed from [slot]. *)
Definition clearChildren (el : nat) : M unit :=
  λ w, (mkWorld (alter (withChildNodes []) el (dom w))
                (mutations w ++ [ClearChildren el]) (console w) (invoked w),
        Returned tt).

(** Removing [child] from the node that lists it. *)
Definition detach (child : nat) (h : gmap nat Node) : gmap nat Node :=
  (λ nd, withChildNodes (filter (λ c, c ≠ child) (childNodes nd)) nd) <$> h.

(** [parent.appendChild(child)]: [child] leaves its current parent and
    becomes the last child of [parent]; a node cannot be put below itself. *)
Definition appendChild (parent child : nat) : M unit :=
  λ w, if bool_decide (parent ∈ child :: descendants (dom w) child)
       then (w, Thrown HierarchyRequestError)
       else (mkWorld (alter (λ nd, withChildNodes (childNodes nd ++ [child]) nd) parent
                            (detach child (dom w)))
                     (mutations w ++ [AppendChild parent child]) (console w) (invoked w),
             Returned tt).

(** [this._swapCallback?.(event)]: the call is recorded, and what the
    callback throws is thrown by the call. *)
Definition invokeCallback (callback : option SwapCallback) (event : SwapEventData)
  : M unit :=
  match callback with
  | Some cb =>
      λ w, (mkWorld (dom w) (mutations w) (console w) (invoked w ++ [(cb, event)]),
            if callbackThrows cb event then Thrown HostError else Returned tt)
  | None => ret tt
  end.

(** [this._previousMap?.get(slotName)]. *)
Definition previousGet (this : Swapy) (slotName : string) : option (option string) :=
  pm ← _previousMap this; Map_get pm slotName.

(** The body of the [forEach] of [_applyOrder]. *)
Definition applySlot (this : Swapy) (map : list (string * option string))
    (slotName : string) : M unit :=
  if bool_decide (Map_get map slotName = previousGet this slotName) then ret tt
  else
    match mjoin (Map_get map slotName) with
    | Some itemName =>
        if bool_decide (itemName = "") then ret tt
        else
          match _slotElMap this !! slotName, _itemElMap this !! itemName with
          | Some slot, Some item => clearChildren slot ;;; appendChild slot item
          | _, _ => ret tt
          end
    | None => ret tt
    end.

(** [_applyOrder] with the order of the slot names made explicit. *)
Definition applyOrderIn (slotNames : list string) (this : Swapy)
    (map : list (string * option string)) : M unit :=
  forEach (applySlot this map) slotNames.

Definition _applyOrder (this : Swapy) (map : list (string * option string)) : M unit :=
  applyOrderIn (Map_keys map) this map.

(** Modelled from the spec: [mapsAreEqual] of [./utils], which is not among
    the sources.  Two maps are value-set-equal when they hold the same
    key-to-value pairs, whatever the order of their keys. *)
Definition mapsAreEqual (m1 m2 : list (string * option string)) : bool :=
  forallb (λ k, bool_decide (Map_get m1 k = Map_get m2 k)) (Map_keys m1 ++ Map_keys m2).

(** The handler of [InitEvent]. *)
Definition onInitEvent (map : list (string * option string)) (this : Swapy) : M Swapy :=
  ret (setPreviousMap map this).

Definition suppressed (this : Swapy) (event : SwapEventData) : bool :=
  match _previousMap this with
  | Some pm => mapsAreEqual pm (data_map event)
  | None => false
  end.

(** The handler of [SwapEvent]. *)
Definition onSwapEvent (event : SwapEventData) (this : Swapy) : M Swapy :=
  if suppressed this event then ret this
  else
    _applyOrder this (data_map event) ;;;
    invokeCallback (_swapCallback this) event ;;;
    ret (setPreviousMap (data_map event) this).

(** ** Live-tree watcher *)

Inductive MutationType := childList | attributes | characterData.

Record MutationRecord := mkMutationRecord { type : MutationType }.

Definition isChildList (m : MutationRecord) : bool :=
  match type m with childList => true | _ => false end.

(** The callback of the [MutationObserver]. *)
Definition onMutations (records : list MutationRecord) (this : Swapy) : M Swapy :=
  if existsb isChildList records then
    found ←← resyncItems (_rootEl this);
    if found then
      h ←← getDom;
      ret (setRegistries (_createSlotElMap h (_rootEl this))
                         (_createItemElMap h (_rootEl this)) this)
    else ret this
  else ret this.

(** ** Public facade *)

(** [createSwapy]; a [null] root is [None].  The returned handle is the
    instance its [onSwap] and [enable] act on. *)
Definition createSwapy (root : option nat) (userConfig : PartialConfig)
    (pluginKey : string) : M Swapy :=
  match root with
  | None => throw MissingRoot
  | Some rootEl =>
      let config := mergeConfig userConfig in
      valid ←← validate rootEl;
      if negb valid then throw InvalidStructure
      else
        pluginKey ←← addVeloxiDataAttributes rootEl config pluginKey;
        newSwapy rootEl
  end.

(** [SwapyApi.onSwap]. *)
Definition onSwap (callback : SwapCallback) (swapy : Swapy) : Swapy :=
  setSwapCallback callback swapy.

(** * Vocabulary of the properties *)

(** ** Assignment maps *)

(** The spec's value-set-equality: the same key-to-value pairs. *)
Definition valueSetEqual (m1 m2 : list (string * option string)) : Prop :=
  ∀ k, Map_get m1 k = Map_get m2 k.

(** The invariant of an AssignmentMap: an item id is the value of at most
    one entry. *)
Definition itemsAssignedOnce (map : list (string * option string)) : Prop :=
  NoDup (omap snd map).

(** ** The diff *)

(** The placement a slot name calls for: the slot element and the item
    element to put into it, or nothing when the slot is skipped. *)
Definition placementOf (this : Swapy) (map : list (string * option string))
    (slotName : string) : option (nat * nat) :=
  if bool_decide (Map_get map slotName = previousGet this slotName) then None
  else
    itemName ← mjoin (Map_get map slotName);
    if bool_decide (itemName = "") then None
    else
      slot ← _slotElMap this !! slotName;
      item ← _itemElMap this !! itemName;
      Some (slot, item).

(** A placement carried out: the slot is emptied and the item appended. *)
Definition place (sp : nat * nat) : M unit :=
  clearChildren sp.1 ;;; appendChild sp.1 sp.2.

(** The store after a placement that went through: the slot holds the item
    alone, and the item is in no other child list. *)
Definition placeDom (sp : nat * nat) (h : gmap nat Node) : gmap nat Node :=
  alter (λ nd, withChildNodes (childNodes nd ++ [sp.2]) nd) sp.1
        (detach sp.2 (alter (withChildNodes []) sp.1 h)).

(** The two writes of a placement that went through. *)
Definition placeTrace (sp : nat * nat) : list Mutation :=
  [ClearChildren sp.1; AppendChild sp.1 sp.2].

(** The store a completed run leaves: the placements, in order. *)
Definition applyDom (this : Swapy) (map : list (string * option string))
    (h : gmap nat Node) (slotName : string) : gmap nat Node :=
  match placementOf this map slotName with
  | Some sp => placeDom sp h
  | None => h
  end.

(** The writes a slot name contributes to a completed run. *)
Definition applyTrace (this : Swapy) (map : list (string * option string))
    (slotName : string) : list Mutation :=
  match placementOf this map slotName with
  | Some sp => placeTrace sp
  | None => []
  end.


(** The calls an effective swap event makes to the host. *)
Definition callbackTrace (this : Swapy) (event : SwapEventData)
  : list (SwapCallback * SwapEventData) :=
  match _swapCallback this with
  | Some cb => [(cb, event)]
  | None => []
  end.

(** Whether the call an effective swap event makes to the host throws. *)
Definition callbackFails (this : Swapy) (event : SwapEventData) : bool :=
  match _swapCallback this with
  | Some cb => callbackThrows cb event
  | None => false
  end.

(** The three ways a slot of the candidate map is skipped. *)
Definition skippedSlot (this : Swapy) (map : list (string * option string))
    (slotName : string) : Prop :=
  truthy (mjoin (Map_get map slotName)) = false ∨
  _slotElMap this !! slotName = None ∨
  ∃ itemName, Map_get map slotName = Some (Some itemName) ∧
              _itemElMap this !! itemName = None.

(** A registry that gives no element two ids. *)
Definition registryInjective (registry : gmap string nat) : Prop :=
  ∀ id1 id2 el, registry !! id1 = Some el → registry !! id2 = Some el → id1 = id2.

(** The child nodes of [n]: what a slot element holds. *)
Definition childNodesOf (h : gmap nat Node) (n : nat) : list nat :=
  default [] (childNodes <$> h !! n).

(** Both registries of an instance give no element two ids. *)
Definition registriesInjective (this : Swapy) : Prop :=
  registryInjective (_slotElMap this) ∧ registryInjective (_itemElMap this).

(** ** Validation and construction *)

(** What [validate] reports for one slot, in the order it reports it. *)
Definition slotDiagnostics (h : gmap nat Node) (slot : nat) : list Diagnostic :=
  let slotId := getData h slot "swapySlot" in
  (if truthy slotId then [] else [MissingSlotId slot]) ++
  (if bool_decide (1 < length (children h slot)) then [TooManyChildren slotId] else []) ++
  match head (children h slot) with
  | Some slotChild =>
      if truthy (getData h slotChild "swapyItem") then [] else [UnlabeledChild slotId]
  | None => []
  end.

(** What [validate] reports for a root. *)
Definition validateDiagnostics (h : gmap nat Node) (root : nat) : list Diagnostic :=
  let slotElements := querySelectorAll h root "swapySlot" in
  (if bool_decide (length slotElements = 0) then [NoSlots root] else []) ++
  flat_map (slotDiagnostics h) slotElements.

(** A computation that only reports: it returns, and the store, the write
    trace and the host trace are what they were. *)
Definition reports {A} (m : M A) (w : World) (ds : list Diagnostic) (a : A) : Prop :=
  ∃ w', m w = (w', Returned a) ∧ dom w' = dom w ∧ mutations w' = mutations w ∧
        invoked w' = invoked w ∧ console w' = console w ++ ds.

(** The markup contract: at least one slot, and every slot has a non-empty
    id, at most one child element, and no child element without a non-empty
    item id. *)
Definition validMarkup (h : gmap nat Node) (root : nat) : Prop :=
  querySelectorAll h root "swapySlot" ≠ [] ∧
  ∀ slot, slot ∈ querySelectorAll h root "swapySlot" →
    truthy (getData h slot "swapySlot") = true ∧
    (length (children h slot) ≤ 1)%nat ∧
    ∀ child, child ∈ children h slot → truthy (getData h child "swapyItem") = true.

(** A computation that never throws. *)
Definition returns {A} (m : M A) : Prop := ∀ w, ∃ w' a, m w = (w', Returned a).

(** ** Trees *)

(** The store is a forest when its nodes can be ranked so that every child
    ranks below its parent.  With ranks at most [size h], the walk of
    [descendants] reaches every node below its starting point. *)
Definition ranked (rank : nat → nat) (h : gmap nat Node) : Prop :=
  map_Forall (λ n nd, (rank n ≤ size h)%nat ∧
                      Forall (λ c, rank c < rank n) (childNodes nd)) h.

(** The nodes below a node: its children, and the nodes below them. *)
Inductive below (h : gmap nat Node) (n : nat) : nat → Prop :=
| below_child nd c : h !! n = Some nd → c ∈ childNodes nd → below h n c
| below_deeper nd c x : h !! n = Some nd → c ∈ childNodes nd → below h c x → below h n x.

(** ** Tagging *)

(** The attributes the page authors; the tagger reads them and never
    writes them. *)
Definition markupKeys : list string :=
  ["swapySlot"; "swapyItem"; "swapyHandle"; "swapyText"; "swapyExclude"].

(** Two stores with the same tree and the same authored attributes. *)
Definition sameMarkup (h h' : gmap nat Node) : Prop :=
  ∀ n, nodeKind <$> h !! n = nodeKind <$> h' !! n ∧
       childNodes <$> h !! n = childNodes <$> h' !! n ∧
       ∀ key, key ∈ markupKeys → getData h n key = getData h' n key.

(** A write [(el, key, value)] is [el.dataset[key] = value]. *)
Definition applyWrite (h : gmap nat Node) (wr : nat * string * string) : gmap nat Node :=
  alter (λ nd, withDataset (<[wr.1.2 := wr.2]> (dataset nd)) nd) wr.1.1 h.

(** The trace a list of writes leaves. *)
Definition writeTrace (ws : list (nat * string * string)) : list Mutation :=
  (λ wr, SetData wr.1.1 wr.1.2 wr.2) <$> ws.

(** A write of the tagger: it goes to none of the authored attributes. *)
Definition taggerWrite (wr : nat * string * string) : Prop := wr.1.2 ∉ markupKeys.

(** A computation that, started in a store with the markup of [h0], returns
    [a] after the writes [ws] and nothing else. *)
Definition tags {A} (h0 : gmap nat Node) (m : M A)
    (ws : list (nat * string * string)) (a : A) : Prop :=
  Forall taggerWrite ws ∧
  ∀ w, sameMarkup h0 (dom w) →
    ∃ w', m w = (w', Returned a) ∧
      dom w' = foldl applyWrite (dom w) ws ∧
      mutations w' = mutations w ++ writeTrace ws ∧
      console w' = console w ∧ invoked w' = invoked w.

(** The write to the handle of an item, read off the store [h]. *)
Definition handleWrites (h : gmap nat Node) (item : nat) : list (nat * string * string) :=
  match querySelector h item "swapyHandle" with
  | Some handle => [(handle, "velView", "handle")]
  | None => []
  end.

(** The writes of [tagItemView]. *)
Definition viewWrites (h : gmap nat Node) (item : nat) : list (nat * string * string) :=
  [(item, "velView", "item")] ++
  [(item, "velLayoutId", toDataString (getData h item "swapyItem"))] ++
  handleWrites h item.

(** The writes of [resyncItem]. *)
Definition itemWrites (h : gmap nat Node) (item : nat) : list (nat * string * string) :=
  viewWrites h item ++
  flat_map (λ el, [(el, "velLayoutPosition", "")]) (querySelectorAll h item "swapyText") ++
  flat_map (λ el, [(el, "velIgnore", "")]) (querySelectorAll h item "swapyExclude").

(** The writes of [resyncItems]. *)
Definition resyncWrites (h : gmap nat Node) (root : nat) : list (nat * string * string) :=
  flat_map (itemWrites h) (untaggedItems h root).

(** The writes of [addVeloxiDataAttributes] to the root. *)
Definition rootWrites (root : nat) (config : Config) (pluginKey : string)
  : list (nat * string * string) :=
  [(root, "velPluginKey", pluginKey); (root, "velPlugin", "Swapy");
   (root, "velView", "root");
   (root, "velDataConfigAnimation", toDataString (animationName <$> animation config))] ++
  (if default false (continuousMode config)
   then [(root, "velDataConfigContinuousMode", "true")] else []).

(** The writes of [addVeloxiDataAttributes] below the root: slots, items
    with their handles, text marks and exclude marks, in this order. *)
Definition subtreeWrites (h : gmap nat Node) (root : nat) : list (nat * string * string) :=
  flat_map (λ slot, [(slot, "velView", "slot")]) (querySelectorAll h root "swapySlot") ++
  flat_map (viewWrites h) (querySelectorAll h root "swapyItem") ++
  flat_map (λ el, [(el, "velLayoutPosition", "")]) (querySelectorAll h root "swapyText") ++
  flat_map (λ el, [(el, "velIgnore", "")]) (querySelectorAll h root "swapyExclude").

(** The writes of [addVeloxiDataAttributes]. *)
Definition taggerWrites (h : gmap nat Node) (root : nat) (config : Config)
    (pluginKey : string) : list (nat * string * string) :=
  rootWrites root config pluginKey ++ subtreeWrites h root.

(** What re-tagging gives an untagged item: the item view, its item id as
    layout id, a handle view on its handle unless the handle is one of the
    untagged [items] itself, and the two marks below it. *)
Definition retagged (h h' : gmap nat Node) (items : list nat) (item : nat) : Prop :=
  getData h' item "velView" = Some "item" ∧
  getData h' item "velLayoutId" = getData h item "swapyItem" ∧
  (∀ handle, querySelector h item "swapyHandle" = Some handle → handle ∉ items →
     getData h' handle "velView" = Some "handle") ∧
  (∀ el, el ∈ querySelectorAll h item "swapyText" →
     getData h' el "velLayoutPosition" = Some "") ∧
  (∀ el, el ∈ querySelectorAll h item "swapyExclude" →
     getData h' el "velIgnore" = Some "").

(** ** Worked examples *)

(** An element with the given [data-*] attributes and child nodes. *)
Definition demoElement (data : list (string * string)) (childNodes : list nat) : Node :=
  mkNode ElementNode (list_to_map data) childNodes.

(** The scenario of the specification: the root 0 with the slots [left]
    and [right] (1 and 2) holding the items [x] and [y] (3 and 4). *)
Definition demoDom : gmap nat Node :=
  list_to_map [(0, demoElement [] [1; 2]);
               (1, demoElement [("swapySlot", "left")] [3]);
               (2, demoElement [("swapySlot", "right")] [4]);
               (3, demoElement [("swapyItem", "x")] []);
               (4, demoElement [("swapyItem", "y")] [])].

Definition demoWorld : World := mkWorld demoDom [] [] [].

Definition demoBaseline : list (string * option string) :=
  [("left", Some "x"); ("right", Some "y")].

(** A callback of the host that returns, whatever the event. *)
Definition quietCallback (ref : nat) : SwapCallback := mkSwapCallback ref (λ _, false).

(** A callback of the host that throws, whatever the event. *)
Definition throwingCallback (ref : nat) : SwapCallback := mkSwapCallback ref (λ _, true).

(** The instance over [demoDom], with the callback [7], which returns. *)
Definition demoSwapy (previousMap : option (list (string * option string))) : Swapy :=
  mkSwapy 0 (_createSlotElMap demoDom 0) (_createItemElMap demoDom 0)
          (Some (quietCallback 7)) previousMap.

(** The swap event of the scenario: the two items change places. *)
Definition demoSwap : SwapEventData :=
  mkSwapEvent [("left", Some "y"); ("right", Some "x")] "swap".

(** The value a computation returned, or [d] when it threw. *)
Definition outcomeValue {A} (d : A) (r : Outcome A) : A :=
  match r with Returned a => a | Thrown _ => d end.

(** The example of the specification: [previousMap = {left:x, right:y}]
    over the store it describes, and a further item [z] outside the slots. *)
Definition spareDom : gmap nat Node :=
  <[0 := demoElement [] [1; 2; 5]]> (<[5 := demoElement [("swapyItem", "z")] []]> demoDom).

(** A store with an untagged item [a] (node 2) that holds the element 3,
    which is tagged as an item view and is marked as a handle. *)
Definition nestedDom : gmap nat Node :=
  list_to_map [(0, demoElement [("velView", "root")] [1]);
               (1, demoElement [("swapySlot", "s"); ("velView", "slot")] [2]);
               (2, demoElement [("swapyItem", "a")] [3]);
               (3, demoElement [("swapyItem", "b"); ("swapyHandle", "");
                                ("velView", "item"); ("velLayoutId", "b")] [])].

(** The tagged store of the worked example after the page has put a new
    item [z], with a handle and a text mark, into the right slot. *)
Definition lateDom : gmap nat Node :=
  list_to_map [(0, demoElement [("velView", "root")] [1; 2]);
               (1, demoElement [("swapySlot", "left"); ("velView", "slot")] [3]);
               (2, demoElement [("swapySlot", "right"); ("velView", "slot")] [4]);
               (3, demoElement [("swapyItem", "x"); ("velView", "item");
                                ("velLayoutId", "x")] []);
               (4, demoElement [("swapyItem", "z")] [5; 6]);
               (5, demoElement [("swapyHandle", "")] []);
               (6, demoElement [("swapyText", "")] [])].

(** A ranking of [lateDom]: the height of each node. *)
Definition lateRank (n : nat) : nat :=
  match n with
  | 0 => 3
  | 1 | 2 => 2
  | 3 | 4 => 1
  | _ => 0
  end.

(** A store in which the slot [inner] (node 3) lies inside the item [a]
    (node 2) of the slot [outer] (node 1). *)
Definition innerSlotDom : gmap nat Node :=
  list_to_map [(0, demoElement [] [1]);
               (1, demoElement [("swapySlot", "outer")] [2]);
               (2, demoElement [("swapyItem", "a")] [3]);
               (3, demoElement [("swapySlot", "inner")] [4]);
               (4, demoElement [("swapyItem", "b")] [])].

(** A root whose one slot [s] (node 1) holds two elements: the item [a]
    (node 2) and an element without item id (node 3). *)
Definition crowdedDom : gmap nat Node :=
  list_to_map [(0, demoElement [] [1]);
               (1, demoElement [("swapySlot", "s")] [2; 3]);
               (2, demoElement [("swapyItem", "a")] []);
               (3, demoElement [] [])].

(** * Properties *)

(** ** Assignment maps *)

Lemma Map_get_None m k : Map_get m k = None ↔ k ∉ Map_keys m.
Proof.
  unfold Map_keys. induction m as [|[k' v] m IH]; simpl.
  - split; [intros _; apply not_elem_of_nil | done].
  - rewrite not_elem_of_cons. destruct (decide (k' = k)) as [->|Hne].
    + split; [done | intros [? _]; done].
    + rewrite IH. split; [intros ?; split; [congruence | done] | intros [_ ?]; done].
Qed.

Lemma Map_get_is_Some m k : k ∈ Map_keys m → is_Some (Map_get m k).
Proof.
  intros Hin. destruct (Map_get m k) eqn:E; [by eexists |].
  by apply Map_get_None in E.
Qed.

Lemma mapsAreEqual_spec m1 m2 : mapsAreEqual m1 m2 = true ↔ valueSetEqual m1 m2.
Proof.
  unfold mapsAreEqual, valueSetEqual. rewrite forallb_forall. split.
  - intros Hall k.
    destruct (decide (k ∈ Map_keys m1 ++ Map_keys m2)) as [Hin|Hout].
    + apply list_elem_of_In, Hall in Hin. by apply bool_decide_eq_true in Hin.
    + rewrite elem_of_app in Hout.
      assert (Map_get m1 k = None) as -> by (apply Map_get_None; tauto).
      symmetry. apply Map_get_None. tauto.
  - intros Heq k _. by apply bool_decide_eq_true.
Qed.

Lemma suppressed_spec this event :
  suppressed this event = true ↔
  ∃ pm, _previousMap this = Some pm ∧ valueSetEqual pm (data_map event).
Proof.
  unfold suppressed. destruct (_previousMap this) as [pm|].
  - rewrite mapsAreEqual_spec. split; [by eexists | by intros (? & [= <-] & ?)].
  - split; [done | by intros (? & ? & _)].
Qed.

(** ** What one slot of [_applyOrder] does *)

Lemma applySlot_placementOf this map slotName :
  applySlot this map slotName =
  match placementOf this map slotName with
  | Some sp => place sp
  | None => ret tt
  end.
Proof.
  unfold applySlot, placementOf.
  case_bool_decide; [done |].
  destruct (mjoin (Map_get map slotName)) as [itemName|]; simpl; [| done].
  case_bool_decide; [done |].
  destruct (_slotElMap this !! slotName) as [slot|]; simpl; [| done].
  by destruct (_itemElMap this !! itemName).
Qed.

Lemma place_run sp w :
  (∃ w', place sp w = (w', Thrown HierarchyRequestError) ∧
         dom w' = alter (withChildNodes []) sp.1 (dom w) ∧
         mutations w' = mutations w ++ [ClearChildren sp.1] ∧
         console w' = console w ∧ invoked w' = invoked w) ∨
  place sp w = (mkWorld (placeDom sp (dom w)) (mutations w ++ placeTrace sp)
                        (console w) (invoked w), Returned tt).
Proof.
  unfold place, bind, clearChildren, appendChild; simpl.
  case_bool_decide.
  - left. by eexists.
  - right. by rewrite <-(assoc_L (++)).
Qed.

Lemma placeDom_lookup sp h n :
  placeDom sp h !! n =
  (λ nd, withChildNodes (if decide (n = sp.1) then [sp.2]
                         else filter (λ c, c ≠ sp.2) (childNodes nd)) nd) <$> h !! n.
Proof.
  unfold placeDom, detach. destruct (decide (n = sp.1)) as [->|Hne].
  - rewrite lookup_alter_eq, lookup_fmap, lookup_alter_eq.
    by destruct (h !! sp.1).
  - rewrite lookup_alter_ne, lookup_fmap, lookup_alter_ne by done.
    done.
Qed.

Lemma placementOf_Some this map slotName sp :
  placementOf this map slotName = Some sp →
  Map_get map slotName ≠ previousGet this slotName ∧
  ∃ itemName, Map_get map slotName = Some (Some itemName) ∧ itemName ≠ "" ∧
    _slotElMap this !! slotName = Some sp.1 ∧ _itemElMap this !! itemName = Some sp.2.
Proof.
  unfold placementOf. case_bool_decide as Hch; [done |].
  destruct (Map_get map slotName) as [[itemName|]|] eqn:Hget; simpl; [| done | done].
  case_bool_decide as Hempty; [done |].
  destruct (_slotElMap this !! slotName) as [slot|]; simpl; [| done].
  destruct (_itemElMap this !! itemName) as [item|] eqn:Hitem; simpl; [| done].
  intros [= <-]. split; [done |]. by exists itemName.
Qed.

(** ** Runs of [_applyOrder] *)

Lemma applySlot_skip this map slotName w :
  placementOf this map slotName = None →
  applySlot this map slotName w = (w, Returned tt).
Proof. intros H. by rewrite applySlot_placementOf, H. Qed.

Lemma applyOrderIn_returned slotNames this map w w' :
  applyOrderIn slotNames this map w = (w', Returned tt) →
  dom w' = foldl (applyDom this map) (dom w) slotNames ∧
  mutations w' = mutations w ++ flat_map (applyTrace this map) slotNames ∧
  console w' = console w ∧ invoked w' = invoked w.
Proof.
  unfold applyOrderIn. revert w.
  induction slotNames as [|k ks IH]; intros w; simpl.
  - intros [= <-]. by rewrite app_nil_r.
  - unfold bind at 1. rewrite applySlot_placementOf.
    unfold applyDom at 2, applyTrace at 1.
    destruct (placementOf this map k) as [sp|]; simpl.
    + destruct (place_run sp w) as [(w1 & -> & _)| ->]; [done |].
      intros (-> & -> & -> & ->)%IH; simpl. by rewrite <-(assoc_L (++)).
    + intros (-> & -> & -> & ->)%IH. done.
Qed.

(** Whatever the outcome, a run writes nothing but placements the slot
    names call for, and touches neither the console nor the host. *)
Lemma applyOrderIn_trace slotNames this map w w' r :
  applyOrderIn slotNames this map w = (w', r) →
  (r = Returned tt ∨ r = Thrown HierarchyRequestError) ∧
  console w' = console w ∧ invoked w' = invoked w ∧
  ∃ ms, mutations w' = mutations w ++ ms ∧
    ∀ m, m ∈ ms → ∃ slotName sp, slotName ∈ slotNames ∧
      placementOf this map slotName = Some sp ∧
      (m = ClearChildren sp.1 ∨ m = AppendChild sp.1 sp.2).
Proof.
  unfold applyOrderIn. revert w.
  induction slotNames as [|k ks IH]; intros w; simpl.
  - intros [= <- <-]. split_and!; [by left | done | done |].
    exists []. split; [by rewrite app_nil_r | by intros ? ?%elem_of_nil].
  - unfold bind at 1. rewrite applySlot_placementOf.
    destruct (placementOf this map k) as [sp|] eqn:Hsp; simpl.
    + destruct (place_run sp w) as [(w1 & -> & _ & Hm & Hc & Hi)| ->].
      * intros [= <- <-]. split_and!; [by right | done | done |].
        exists [ClearChildren sp.1]. split; [done |].
        intros m ->%list_elem_of_singleton. exists k, sp.
        split_and!; [left | done | by left].
      * intros (Hr & -> & -> & ms & -> & Hms)%IH; simpl.
        split_and!; [done | done | done |].
        exists (placeTrace sp ++ ms). split; [by rewrite <-(assoc_L (++)) |].
        intros m [Hin|Hin]%elem_of_app.
        -- exists k, sp. split_and!; [left | done |].
           apply elem_of_cons in Hin as [->|Hin]; [by left |].
           apply list_elem_of_singleton in Hin as ->. by right.
        -- destruct (Hms m Hin) as (k' & sp' & ? & ? & ?).
           exists k', sp'. split_and!; [by right | done | done].
    + intros (Hr & -> & -> & ms & -> & Hms)%IH.
      split_and!; [done | done | done |].
      exists ms. split; [done |]. intros m Hin.
      destruct (Hms m Hin) as (k' & sp' & ? & ? & ?).
      exists k', sp'. split_and!; [by right | done | done].
Qed.


(** ** The swap handler *)

Lemma invokeCallback_run this event w :
  ∃ w', invokeCallback (_swapCallback this) event w
        = (w', if callbackFails this event then Thrown HostError else Returned tt) ∧
        dom w' = dom w ∧ mutations w' = mutations w ∧ console w' = console w ∧
        invoked w' = invoked w ++ callbackTrace this event.
Proof.
  unfold invokeCallback, callbackTrace, callbackFails.
  destruct (_swapCallback this); simpl.
  - by eexists.
  - exists w. by rewrite app_nil_r.
Qed.

(** An effective swap event: the diff, then the callback, then the new
    snapshot; a throw of the diff leaves callback and snapshot out, a throw
    of the callback the snapshot. *)
Lemma onSwapEvent_effective event this w w' r :
  suppressed this event = false →
  onSwapEvent event this w = (w', r) →
  ∃ w1 r1, _applyOrder this (data_map event) w = (w1, r1) ∧
    match r1 with
    | Returned _ =>
        r = (if callbackFails this event then Thrown HostError
             else Returned (setPreviousMap (data_map event) this)) ∧
        dom w' = dom w1 ∧ mutations w' = mutations w1 ∧ console w' = console w1 ∧
        invoked w' = invoked w1 ++ callbackTrace this event
    | Thrown e => r = Thrown e ∧ w' = w1
    end.
Proof.
  intros Hs. unfold onSwapEvent. rewrite Hs. unfold bind at 1.
  destruct (_applyOrder this (data_map event) w) as [w1 [[]|e]] eqn:Hrun.
  - unfold bind at 1.
    destruct (invokeCallback_run this event w1) as (w2 & -> & ? & ? & ? & ?).
    exists w1, (Returned tt). split; [done |].
    destruct (callbackFails this event); unfold ret in *; by simplify_eq.
  - intros [= <- <-]. by exists w1, (Thrown e).
Qed.

(** An effective swap event whose handler completes: the diff went through
    and the callback did not throw. *)
Lemma onSwapEvent_returned event this w w' this' :
  suppressed this event = false →
  onSwapEvent event this w = (w', Returned this') →
  callbackFails this event = false ∧
  this' = setPreviousMap (data_map event) this ∧
  ∃ w1, _applyOrder this (data_map event) w = (w1, Returned tt) ∧
    dom w' = dom w1 ∧ mutations w' = mutations w1 ∧ console w' = console w1 ∧
    invoked w' = invoked w1 ++ callbackTrace this event.
Proof.
  intros Hs Hrun.
  destruct (onSwapEvent_effective _ _ _ _ _ Hs Hrun) as (w1 & [[]|e] & Happly & Hr).
  - destruct Hr as (Hr & Hrest). destruct (callbackFails this event); [done |].
    injection Hr as ->. split_and!; [done | done |]. by exists w1.
  - by destruct Hr as [? _].
Qed.

(** C1: a swap event whose candidate map is value-set-equal to the stored
    [previousMap] is a complete no-op: the world (store, write trace,
    console, callbacks invoked) and the instance, [previousMap] included,
    are what they were. *)
Theorem swap_value_set_equal_is_noop this event pm w :
  _previousMap this = Some pm →
  valueSetEqual pm (data_map event) →
  onSwapEvent event this w = (w, Returned this).
Proof.
  intros Hpm Heq. unfold onSwapEvent.
  assert (suppressed this event = true) as ->; [| done].
  apply suppressed_spec. by exists pm.
Qed.

(** The candidate lists the keys of the baseline in the other order. *)
Lemma swap_value_set_equal_is_noop_witness :
  let event := mkSwapEvent [("right", Some "y"); ("left", Some "x")] "swap" in
  onSwapEvent event (demoSwapy (Some demoBaseline)) demoWorld
  = (demoWorld, Returned (demoSwapy (Some demoBaseline))).
Proof.
  intros event.
  apply (swap_value_set_equal_is_noop _ event demoBaseline); [reflexivity |].
  apply mapsAreEqual_spec. vm_compute. reflexivity.
Defined.

Lemma skippedSlot_placementOf this map slotName :
  skippedSlot this map slotName → placementOf this map slotName = None.
Proof.
  unfold placementOf, skippedSlot. intros Hskip.
  case_bool_decide; [done |].
  destruct (Map_get map slotName) as [[itemName|]|]; simpl; [| done | done].
  case_bool_decide as Hempty; [done |].
  destruct Hskip as [Hfalsy | [-> | (i & [= <-] & ->)]].
  - simpl in Hfalsy. apply negb_false_iff, bool_decide_eq_true in Hfalsy. done.
  - done.
  - by destruct (_slotElMap this !! slotName).
Qed.

(** C7: a swap event that is not suppressed and whose handler completes
    leaves [previousMap] equal to the candidate map of the event, and calls
    the registered callback, when there is one, exactly once, with the
    event itself. *)
Theorem effective_swap_stores_map_and_calls_back_once event this w w' this' :
  suppressed this event = false →
  onSwapEvent event this w = (w', Returned this') →
  _previousMap this' = Some (data_map event) ∧
  this' = setPreviousMap (data_map event) this ∧
  invoked w' = invoked w ++ match _swapCallback this with
                            | Some callback => [(callback, event)]
                            | None => []
                            end.
Proof.
  intros Hs Hrun.
  destruct (onSwapEvent_returned _ _ _ _ _ Hs Hrun)
    as (_ & -> & w1 & Happly & _ & _ & _ & Hinv).
  apply applyOrderIn_returned in Happly as (_ & _ & _ & Hinv1).
  split_and!; [done | done |]. by rewrite Hinv, Hinv1.
Qed.

Lemma effective_swap_stores_map_and_calls_back_once_witness :
  let run := onSwapEvent demoSwap (demoSwapy (Some demoBaseline)) demoWorld in
  _previousMap (outcomeValue (demoSwapy None) run.2) = Some (data_map demoSwap) ∧
  invoked run.1 = [(quietCallback 7, demoSwap)].
Proof.
  intros run.
  destruct (effective_swap_stores_map_and_calls_back_once demoSwap
              (demoSwapy (Some demoBaseline)) demoWorld run.1
              (outcomeValue (demoSwapy None) run.2)) as (H1 & _ & H3).
  - reflexivity.
  - vm_compute. reflexivity.
  - split; [exact H1 | exact H3].
Defined.

Lemma flat_map_split {A B} (f : A → list B) (x : A) (l : list A) :
  x ∈ l → ∃ l1 l2, flat_map f l = l1 ++ f x ++ l2.
Proof.
  intros (l1 & l2 & ->)%list_elem_of_split.
  exists (flat_map f l1), (flat_map f l2). by rewrite flat_map_app.
Qed.

Lemma Map_get_Some_key m k v : Map_get m k = Some v → k ∈ Map_keys m.
Proof.
  intros Hget. destruct (decide (k ∈ Map_keys m)) as [|Hout]; [done |].
  apply Map_get_None in Hout. congruence.
Qed.

(** C9: before any init event ([previousMap] unset) a swap event is never
    suppressed; no slot is taken for unchanged, so the step of every slot
    whose candidate item id is a non-empty string and whose two registry
    lookups succeed clears the slot and appends the item; and when the
    handler completes, these writes are in the trace, the callback has been
    called and the candidate is stored, whatever the store looked like. *)
Theorem swap_before_init_applies_everything event this :
  _previousMap this = None →
  suppressed this event = false ∧
  (∀ slotName itemName slot item,
     Map_get (data_map event) slotName = Some (Some itemName) → itemName ≠ "" →
     _slotElMap this !! slotName = Some slot →
     _itemElMap this !! itemName = Some item →
     applySlot this (data_map event) slotName
     = (clearChildren slot ;;; appendChild slot item) ∧
     ∀ w w' this', onSwapEvent event this w = (w', Returned this') →
       ∃ ms1 ms2, mutations w' = mutations w ++ ms1
                    ++ [ClearChildren slot; AppendChild slot item] ++ ms2) ∧
  (∀ w w' this', onSwapEvent event this w = (w', Returned this') →
     this' = setPreviousMap (data_map event) this ∧
     invoked w' = invoked w ++ callbackTrace this event).
Proof.
  intros Hnone.
  assert (suppressed this event = false) as Hs by (unfold suppressed; by rewrite Hnone).
  assert (∀ w w' this', onSwapEvent event this w = (w', Returned this') →
            this' = setPreviousMap (data_map event) this ∧
            invoked w' = invoked w ++ callbackTrace this event ∧
            mutations w' = mutations w
              ++ flat_map (applyTrace this (data_map event)) (Map_keys (data_map event)))
    as Hrun.
  { intros w w' this' Hrun.
    destruct (onSwapEvent_returned _ _ _ _ _ Hs Hrun)
      as (_ & -> & w1 & Happly & _ & Hm & _ & Hinv).
    apply applyOrderIn_returned in Happly as (_ & Hm1 & _ & Hinv1).
    by rewrite Hinv, Hinv1, Hm, Hm1. }
  split_and!; [done | | intros w w' this' H; by destruct (Hrun _ _ _ H) as (? & ? & _)].
  intros slotName itemName slot item Hget Hne Hslot Hitem.
  assert (placementOf this (data_map event) slotName = Some (slot, item)) as Hsp.
  { unfold placementOf, previousGet. rewrite Hnone, Hget; simpl.
    rewrite bool_decide_eq_false_2 by done.
    by rewrite Hslot, Hitem. }
  split; [by rewrite applySlot_placementOf, Hsp |].
  intros w w' this' H. destruct (Hrun _ _ _ H) as (_ & _ & ->).
  destruct (flat_map_split (applyTrace this (data_map event)) slotName
              (Map_keys (data_map event))) as (ms1 & ms2 & ->).
  { by eapply Map_get_Some_key. }
  exists ms1, ms2. unfold applyTrace. by rewrite Hsp.
Qed.

(** The candidate is the arrangement the store already has; the slots are
    cleared and filled all the same, and the host is called. *)
Lemma swap_before_init_applies_everything_witness :
  let event := mkSwapEvent demoBaseline "swap" in
  let run := onSwapEvent event (demoSwapy None) demoWorld in
  (∃ ms1 ms2, mutations run.1
     = mutations demoWorld ++ ms1 ++ [ClearChildren 2; AppendChild 2 4] ++ ms2) ∧
  invoked run.1 = [(quietCallback 7, event)] ∧ dom run.1 = demoDom.
Proof.
  intros event run.
  destruct (swap_before_init_applies_everything event (demoSwapy None) eq_refl)
    as (_ & Hslot & Hrun).
  assert (onSwapEvent event (demoSwapy None) demoWorld
          = (run.1, Returned (outcomeValue (demoSwapy None) run.2))) as Heq
    by (vm_compute; reflexivity).
  split_and!.
  - destruct (Hslot "right" "y" 2 4) as [_ H]; [reflexivity | done | reflexivity.. |].
    exact (H _ _ _ Heq).
  - destruct (Hrun _ _ _ Heq) as [_ H]. exact H.
  - vm_compute. reflexivity.
Defined.

(** C10, as stated, fails: the snapshot is not stored unconditionally.  Over
    the scenario, with a callback that throws, the event for
    [{left:z, right:null}] is not suppressed and every slot of it is skipped
    ([z] is not registered, [right] is to be emptied); the callback is
    called and throws, the handler ends there, and [previousMap] is still
    the baseline: the same event delivered again is not suppressed. *)
Lemma thrown_callback_keeps_old_snapshot :
  let this := mkSwapy 0 (_createSlotElMap demoDom 0) (_createItemElMap demoDom 0)
                      (Some (throwingCallback 7)) (Some demoBaseline) in
  let event := mkSwapEvent [("left", Some "z"); ("right", None)] "swap" in
  let run := onSwapEvent event this demoWorld in
  let after := outcomeValue this run.2 in
  suppressed this event = false ∧
  run.2 = Thrown HostError ∧
  dom run.1 = demoDom ∧ mutations run.1 = [] ∧
  invoked run.1 = [(throwingCallback 7, event)] ∧
  _previousMap after = Some demoBaseline ∧
  suppressed after event = false.
Proof. vm_compute. repeat split; reflexivity. Qed.

(** C10, amended: whenever the handler of a swap event that is not
    suppressed completes, [previousMap] is the candidate map, whatever the
    diff did, and a further event with a value-set-equal map is then
    suppressed.  When the diff skips every slot (entry unchanged, item id
    null or empty, or a registry lookup that failed) the store is what it
    was and nothing is written, and the handler completes, storing the
    candidate, unless the callback throws. *)
Theorem snapshot_stored_when_handler_completes event this w :
  suppressed this event = false →
  (∀ w' this', onSwapEvent event this w = (w', Returned this') →
     _previousMap this' = Some (data_map event) ∧
     ∀ event', valueSetEqual (data_map event) (data_map event') →
       onSwapEvent event' this' w' = (w', Returned this')) ∧
  ((∀ slotName, slotName ∈ Map_keys (data_map event) →
      Map_get (data_map event) slotName = previousGet this slotName ∨
      skippedSlot this (data_map event) slotName) →
   ∃ w', onSwapEvent event this w
         = (w', if callbackFails this event then Thrown HostError
                else Returned (setPreviousMap (data_map event) this)) ∧
     dom w' = dom w ∧ mutations w' = mutations w).
Proof.
  intros Hs. split.
  - intros w' this' Hrun.
    destruct (onSwapEvent_returned _ _ _ _ _ Hs Hrun) as (_ & -> & _).
    split; [done |]. intros event' Heq. unfold onSwapEvent.
    assert (suppressed (setPreviousMap (data_map event) this) event' = true) as ->; [| done].
    apply suppressed_spec. by eexists.
  - intros Hskip.
    assert (∀ slotName, slotName ∈ Map_keys (data_map event) →
              placementOf this (data_map event) slotName = None) as Hnone.
    { intros k [Hsame|Hsk]%Hskip; [| by apply skippedSlot_placementOf].
      unfold placementOf. by rewrite bool_decide_eq_true_2. }
    assert (∀ ks, ks ⊆ Map_keys (data_map event) →
              applyOrderIn ks this (data_map event) w = (w, Returned tt)) as Hrun.
    { unfold applyOrderIn. induction ks as [|k ks IH]; intros Hsub; simpl; [done |].
      unfold bind at 1. rewrite applySlot_skip by (apply Hnone, Hsub; left).
      apply IH. intros x Hx. apply Hsub. by right. }
    unfold onSwapEvent. rewrite Hs. unfold _applyOrder, bind at 1.
    rewrite Hrun by done. unfold bind at 1.
    destruct (invokeCallback_run this event w) as (w' & -> & Hd & Hm & _ & _).
    exists w'. split_and!; [| done | done].
    by destruct (callbackFails this event).
Qed.

(** The item [z] is not registered yet and the right slot is to be emptied:
    nothing moves, the callback returns, and the same map delivered again
    is dropped. *)
Lemma snapshot_stored_when_handler_completes_witness :
  let event := mkSwapEvent [("left", Some "z"); ("right", None)] "swap" in
  let this := demoSwapy (Some demoBaseline) in
  let run := onSwapEvent event this demoWorld in
  dom run.1 = demoDom ∧ mutations run.1 = [] ∧
  onSwapEvent event (setPreviousMap (data_map event) this) run.1
  = (run.1, Returned (setPreviousMap (data_map event) this)).
Proof.
  intros event this run.
  destruct (snapshot_stored_when_handler_completes event this demoWorld)
    as (Hdone & Hskipped); [reflexivity |].
  destruct Hskipped as (w' & Hrun & Hd & Hm).
  { intros k Hk. right.
    apply elem_of_cons in Hk as [->|Hk]; [right; right; by exists "z" |].
    apply list_elem_of_singleton in Hk as ->. by left. }
  change (callbackFails this event) with false in Hrun. cbv iota in Hrun.
  destruct (Hdone _ _ Hrun) as [_ Hagain].
  subst run. rewrite Hrun. simpl. split_and!; [exact Hd | exact Hm |].
  apply Hagain. intros k. reflexivity.
Defined.

(** ** Registries *)

(** Every entry of a registry is an element under its own id. *)
Lemma createElMap_lookup h root key id el :
  createElMap h root key !! id = Some el →
  el ∈ querySelectorAll h root key ∧ getData h el key = Some id.
Proof.
  unfold createElMap.
  assert (∀ els acc,
            (∀ id el, acc !! id = Some el → el ∈ els ∧ getData h el key = Some id) →
            ∀ more id el, foldl (registerEl h key) acc more !! id = Some el →
                          el ∈ els ++ more ∧ getData h el key = Some id) as Hfold.
  { intros els acc Hacc more. revert els acc Hacc.
    induction more as [|x more IH]; intros els acc Hacc id' el'; simpl.
    - rewrite app_nil_r. apply Hacc.
    - intros Hin. rewrite (assoc_L (++) els [x] more : els ++ x :: more = (els ++ [x]) ++ more).
      apply (IH (els ++ [x]) (registerEl h key acc x)); [| done].
      intros id2 el2. unfold registerEl.
      destruct (getData h x key) as [idx|] eqn:Hx.
      + rewrite lookup_insert. case_decide as Hid.
        * intros [= <-]. subst. split; [apply elem_of_app; right; by left | done].
        * intros [? ?]%Hacc. split; [apply elem_of_app; by left | done].
      + intros [? ?]%Hacc. split; [apply elem_of_app; by left | done]. }
  intros Hin. apply (Hfold [] ∅); [| done].
  intros ? ?. by rewrite lookup_empty.
Qed.

(** The registries the builder makes never give one element two ids. *)
Lemma createElMap_injective h root key : registryInjective (createElMap h root key).
Proof.
  intros id1 id2 el [_ H1]%createElMap_lookup [_ H2]%createElMap_lookup. congruence.
Qed.

(** ** Diff minimality *)

Lemma withChildNodes_id nd : withChildNodes (childNodes nd) nd = nd.
Proof. by destruct nd. Qed.

Lemma filter_ne_id (c : nat) (l : list nat) : c ∉ l → filter (λ x, x ≠ c) l = l.
Proof.
  induction l as [|y l IH]; [done |]. rewrite not_elem_of_cons. intros [Hne Hl].
  rewrite filter_cons_True by done. by rewrite IH.
Qed.

(** A node that no placement targets and that holds no placed item stays
    what it is through a run, however the run ends. *)
Lemma applyOrderIn_frame slotNames this map w w' r n :
  applyOrderIn slotNames this map w = (w', r) →
  (∀ slotName sp, slotName ∈ slotNames → placementOf this map slotName = Some sp →
     n ≠ sp.1 ∧ sp.2 ∉ childNodesOf (dom w) n) →
  dom w' !! n = dom w !! n.
Proof.
  unfold applyOrderIn. revert w.
  induction slotNames as [|k ks IH]; intros w; simpl.
  - by intros [= <- <-].
  - intros Hrun Hsafe. unfold bind at 1 in Hrun. rewrite applySlot_placementOf in Hrun.
    destruct (placementOf this map k) as [sp|] eqn:Hsp.
    + destruct (Hsafe k sp) as [Hne Hout]; [left | done |].
      assert (∀ w1, dom w1 !! n = dom w !! n →
                forEach (applySlot this map) ks w1 = (w', r) → dom w' !! n = dom w !! n)
        as Hnext.
      { intros w1 Hw1 Hrest. rewrite <-Hw1. apply (IH w1); [done |].
        intros k' sp' Hk' Hsp'. destruct (Hsafe k' sp') as [? ?]; [by right | done |].
        split; [done |]. unfold childNodesOf. by rewrite Hw1. }
      destruct (place_run sp w) as [(w1 & Heq & Hd & _)|Heq]; rewrite Heq in Hrun.
      * injection Hrun as <- <-. rewrite Hd. by rewrite lookup_alter_ne.
      * apply Hnext in Hrun; [done |]. cbn [dom]. rewrite placeDom_lookup.
        destruct (decide (n = sp.1)) as [|_]; [done |]. unfold childNodesOf in Hout.
        destruct (dom w !! n) as [nd|]; [| done]. cbn [fmap option_fmap option_map default] in *.
        by rewrite filter_ne_id, withChildNodes_id.
    + apply IH in Hrun; [done |].
      intros k' sp' Hk' Hsp'. apply (Hsafe k' sp'); [by right | done].
Qed.

(** C2, as stated, fails.  Over the scenario, after the init event for
    [{left:x, right:y}], the swap event for [{left:null, right:y}] moves
    nothing (a slot is never emptied) and leaves [previousMap =
    {left:null, right:y}].  For the candidate [{left:null, right:x}] the
    entry of [left] is then unchanged, yet placing [x] into [right] takes it
    out of [left], whose contents change. *)
Lemma unchanged_slot_loses_moved_item :
  let init := onInitEvent demoBaseline (demoSwapy None) demoWorld in
  let emptied := mkSwapEvent [("left", None); ("right", Some "y")] "swap" in
  let first := onSwapEvent emptied (outcomeValue (demoSwapy None) init.2) init.1 in
  let this := outcomeValue (demoSwapy None) first.2 in
  let map := [("left", None); ("right", Some "x")] in
  let run := _applyOrder this map first.1 in
  dom first.1 = demoDom ∧
  _previousMap this = Some [("left", None); ("right", Some "y")] ∧
  Map_get map "left" = previousGet this "left" ∧
  _slotElMap this !! "left" = Some 1 ∧
  run.2 = Returned tt ∧
  childNodesOf (dom first.1) 1 = [3] ∧
  childNodesOf (dom run.1) 1 = [] ∧
  childNodesOf (dom run.1) 2 = [3].
Proof. vm_compute. repeat split; reflexivity. Qed.

(** C2, amended: a run of the diff writes only to slots whose candidate
    entry differs from [previousMap], and a slot whose entry is unchanged is
    never cleared or appended to; its node, child list included, is what it
    was, provided none of the items the run places is one of its children. *)
Theorem unchanged_slot_keeps_contents this map w w' r slotName slot :
  registryInjective (_slotElMap this) →
  _applyOrder this map w = (w', r) →
  Map_get map slotName = previousGet this slotName →
  _slotElMap this !! slotName = Some slot →
  (∀ changed itemName item,
     Map_get map changed ≠ previousGet this changed →
     Map_get map changed = Some (Some itemName) →
     _itemElMap this !! itemName = Some item →
     item ∉ childNodesOf (dom w) slot) →
  dom w' !! slot = dom w !! slot ∧
  ∃ ms, mutations w' = mutations w ++ ms ∧
    ∀ m, m ∈ ms →
      ∃ changed target item,
        Map_get map changed ≠ previousGet this changed ∧
        _slotElMap this !! changed = Some target ∧ target ≠ slot ∧
        (m = ClearChildren target ∨ m = AppendChild target item).
Proof.
  intros Hinj Hrun Hsame Hslot Hout.
  assert (∀ k sp, placementOf this map k = Some sp →
            Map_get map k ≠ previousGet this k ∧ _slotElMap this !! k = Some sp.1 ∧
            sp.1 ≠ slot ∧ sp.2 ∉ childNodesOf (dom w) slot) as Hsp.
  { intros k sp (Hch & i & Hget & _ & Hs & Hi)%placementOf_Some.
    split_and!; [done | done | | by eapply Hout].
    intros Heq. rewrite Heq in Hs.
    assert (k = slotName) as -> by (by eapply Hinj). done. }
  split.
  - eapply applyOrderIn_frame; [exact Hrun |].
    intros k sp _ (_ & _ & ? & ?)%Hsp. done.
  - apply applyOrderIn_trace in Hrun as (_ & _ & _ & ms & Hms & Hall).
    exists ms. split; [done |]. intros m (k & sp & _ & Hk & Hm)%Hall.
    destruct (Hsp k sp Hk) as (? & ? & ? & _).
    exists k, sp.1, sp.2. done.
Qed.

Lemma unchanged_slot_keeps_contents_witness :
  let this := mkSwapy 0 (_createSlotElMap spareDom 0) (_createItemElMap spareDom 0)
                      None (Some demoBaseline) in
  let map := [("left", Some "x"); ("right", Some "z")] in
  let run := _applyOrder this map (mkWorld spareDom [] [] []) in
  dom run.1 !! 1 = spareDom !! 1 ∧ childNodesOf (dom run.1) 2 = [5].
Proof.
  intros this map run.
  destruct (unchanged_slot_keeps_contents this map (mkWorld spareDom [] [] [])
              run.1 run.2 "left" 1) as [H _].
  - apply createElMap_injective.
  - apply surjective_pairing.
  - reflexivity.
  - reflexivity.
  - intros changed itemName item Hch Hget Hitem.
    assert (changed = "right") as ->.
    { apply Map_get_Some_key in Hget as Hk.
      apply elem_of_cons in Hk as [->|Hk]; [by destruct Hch |].
      by apply list_elem_of_singleton in Hk. }
    injection Hget as <-. vm_compute in Hitem. injection Hitem as <-.
    vm_compute. by intros [[=]|[]%elem_of_nil]%elem_of_cons.
  - split; [exact H | vm_compute; reflexivity].
Defined.

(** ** Order independence *)

Lemma childNodes_withChildNodes cs nd : childNodes (withChildNodes cs nd) = cs.
Proof. done. Qed.

Lemma withChildNodes_twice cs1 cs2 nd :
  withChildNodes cs1 (withChildNodes cs2 nd) = withChildNodes cs1 nd.
Proof. done. Qed.

Lemma filter_ne_comm (a b : nat) (l : list nat) :
  filter (λ c, c ≠ a) (filter (λ c, c ≠ b) l) = filter (λ c, c ≠ b) (filter (λ c, c ≠ a) l).
Proof. rewrite !list_filter_filter. apply list_filter_iff. intros x. tauto. Qed.

(** Two placements into different slots of different items commute. *)
Lemma placeDom_comm sp1 sp2 h :
  sp1.1 ≠ sp2.1 → sp1.2 ≠ sp2.2 →
  placeDom sp1 (placeDom sp2 h) = placeDom sp2 (placeDom sp1 h).
Proof.
  intros Hslot Hitem. apply map_eq. intros n. rewrite !placeDom_lookup.
  destruct (h !! n) as [nd|]; [| done]. cbn [fmap option_fmap option_map]. f_equal.
  rewrite !childNodes_withChildNodes, !withChildNodes_twice. f_equal.
  destruct (decide (n = sp1.1)) as [E1|H1]; destruct (decide (n = sp2.1)) as [E2|H2].
  - congruence.
  - by rewrite filter_cons_True.
  - by rewrite filter_cons_True.
  - apply filter_ne_comm.
Qed.

Lemma foldl_Permutation_comm {A B} (f : B → A → B) (l1 l2 : list A) :
  l1 ≡ₚ l2 → NoDup l1 →
  (∀ x y b, x ∈ l1 → y ∈ l1 → x ≠ y → f (f b x) y = f (f b y) x) →
  ∀ b, foldl f b l1 = foldl f b l2.
Proof.
  induction 1 as [|x l l' Hperm IH|x y l|l l' l'' Hp1 IH1 Hp2 IH2];
    intros Hnd Hcomm b; simpl.
  - done.
  - apply NoDup_cons in Hnd as [_ Hnd]. apply IH; [done |].
    intros ? ? ? ? ?. apply Hcomm; by right.
  - apply NoDup_cons in Hnd as [Hy _]. f_equal. apply Hcomm.
    + left.
    + right; left.
    + intros ->. apply Hy. left.
  - rewrite IH1 by done. apply IH2; [by rewrite <-Hp1 |].
    intros ? ? ? ? ?. apply Hcomm; by rewrite Hp1.
Qed.

Lemma Map_get_item_elem_of map slotName itemName :
  Map_get map slotName = Some (Some itemName) → itemName ∈ omap snd map.
Proof.
  induction map as [|[k v] map IH]; simpl; [done |].
  case_decide.
  - intros [= ->]. simpl. left.
  - intros Hin%IH. destruct v; simpl; [by right | done].
Qed.

Lemma itemsAssignedOnce_slot map slot1 slot2 itemName :
  itemsAssignedOnce map →
  Map_get map slot1 = Some (Some itemName) →
  Map_get map slot2 = Some (Some itemName) →
  slot1 = slot2.
Proof.
  unfold itemsAssignedOnce. induction map as [|[k v] map IH]; simpl; [done |].
  intros Hnd. repeat case_decide; subst.
  - done.
  - intros [= ->] Hin%Map_get_item_elem_of. simpl in Hnd.
    by apply NoDup_cons in Hnd as [? _].
  - intros Hin%Map_get_item_elem_of [= ->]. simpl in Hnd.
    by apply NoDup_cons in Hnd as [? _].
  - apply IH. destruct v; simpl in Hnd; [by apply NoDup_cons in Hnd as [_ ?] | done].
Qed.

Lemma applyDom_comm this map slot1 slot2 h :
  registryInjective (_slotElMap this) → registryInjective (_itemElMap this) →
  itemsAssignedOnce map → slot1 ≠ slot2 →
  applyDom this map (applyDom this map h slot1) slot2
  = applyDom this map (applyDom this map h slot2) slot1.
Proof.
  intros Hslots Hitems Honce Hne. unfold applyDom.
  destruct (placementOf this map slot1) as [sp1|] eqn:H1; [| done].
  destruct (placementOf this map slot2) as [sp2|] eqn:H2; [| done].
  apply placementOf_Some in H1 as (_ & i1 & Hg1 & _ & Hs1 & Hi1).
  apply placementOf_Some in H2 as (_ & i2 & Hg2 & _ & Hs2 & Hi2).
  symmetry. apply placeDom_comm.
  - intros Heq. rewrite Heq in Hs1. apply Hne. by eapply Hslots.
  - intros Heq. rewrite Heq in Hi1.
    assert (i1 = i2) as -> by (by eapply Hitems).
    apply Hne. by eapply itemsAssignedOnce_slot.
Qed.

(** C3: the store a completed diff leaves does not depend on the order in
    which the slot names are processed: for a candidate map that assigns
    every item id at most once, a run over any permutation of its keys that
    completes (every slot visited once, no placement refused) ends in the
    store of the run in the order of the map. *)
Theorem applyOrder_order_independent this map order w w1 w2 :
  NoDup (Map_keys map) → itemsAssignedOnce map →
  registryInjective (_slotElMap this) → registryInjective (_itemElMap this) →
  order ≡ₚ Map_keys map →
  _applyOrder this map w = (w1, Returned tt) →
  applyOrderIn order this map w = (w2, Returned tt) →
  dom w1 = dom w2.
Proof.
  intros Hkeys Honce Hslots Hitems Hperm Hrun1 Hrun2.
  apply applyOrderIn_returned in Hrun1 as [-> _].
  apply applyOrderIn_returned in Hrun2 as [-> _].
  apply foldl_Permutation_comm; [done | done |].
  intros slot1 slot2 h _ _ Hne. by apply applyDom_comm.
Qed.

(** The swap of the worked example, right slot first. *)
Lemma applyOrder_order_independent_witness :
  let this := demoSwapy (Some demoBaseline) in
  let map := data_map demoSwap in
  dom (_applyOrder this map demoWorld).1
  = dom (applyOrderIn ["right"; "left"] this map demoWorld).1.
Proof.
  intros this map.
  apply (applyOrder_order_independent this map ["right"; "left"] demoWorld).
  - apply (bool_decide_unpack _). vm_compute. exact I.
  - apply (bool_decide_unpack _). vm_compute. exact I.
  - apply createElMap_injective.
  - apply createElMap_injective.
  - apply Permutation_swap.
  - vm_compute. reflexivity.
  - vm_compute. reflexivity.
Defined.

(** ** Structural validation *)

Lemma reports_ret {A} (a : A) w : reports (ret a) w [] a.
Proof. exists w. by rewrite app_nil_r. Qed.

Lemma reports_error {A} d (a : A) w : reports (consoleError d ;;; ret a) w [d] a.
Proof. by eexists. Qed.

Lemma reports_bind {A B} (m : M A) (f : A → M B) w ds1 ds2 a b :
  reports m w ds1 a →
  (∀ w1, dom w1 = dom w → reports (f a) w1 ds2 b) →
  reports (bind m f) w (ds1 ++ ds2) b.
Proof.
  intros (w1 & Hm & Hd1 & Hm1 & Hi1 & Hc1) Hf.
  destruct (Hf w1 Hd1) as (w2 & Hf2 & Hd2 & Hm2 & Hi2 & Hc2).
  exists w2. unfold bind. rewrite Hm, Hf2.
  split_and!; [done | congruence | congruence | congruence |].
  by rewrite Hc2, Hc1, (assoc_L (++)).
Qed.

Lemma reports_getDom {A} (f : gmap nat Node → M A) w ds a :
  reports (f (dom w)) w ds a → reports (bind getDom f) w ds a.
Proof. done. Qed.

Lemma validateSlot_reports slot isValid w :
  reports (validateSlot slot isValid) w (slotDiagnostics (dom w) slot)
          (isValid && bool_decide (slotDiagnostics (dom w) slot = [])).
Proof.
  unfold reports, validateSlot, slotDiagnostics, bind, getDom, consoleError, ret.
  set (slotId := getData (dom w) slot "swapySlot").
  set (kids := children (dom w) slot).
  destruct (truthy slotId), (bool_decide (1 < length kids)),
    (head kids) as [c|]; try destruct (truthy (getData (dom w) c "swapyItem"));
    cbn [app];
    rewrite ?(bool_decide_eq_true_2 ([] = [])), ?bool_decide_eq_false_2,
      ?andb_true_r, ?andb_false_r by done;
    eexists; (split; [reflexivity |]); cbn [dom mutations invoked console];
    rewrite ?app_nil_r, <-?(assoc_L (++)); done.
Qed.

Lemma validateSlots_reports slots isValid w :
  reports (validateSlots slots isValid) w (flat_map (slotDiagnostics (dom w)) slots)
          (isValid && bool_decide (flat_map (slotDiagnostics (dom w)) slots = [])).
Proof.
  revert isValid w. induction slots as [|slot slots IH]; intros isValid w; simpl.
  - rewrite andb_true_r. apply reports_ret.
  - eapply (reports_bind _ _ _ _ _ _ _ (validateSlot_reports slot isValid w)).
    intros w1 Hd. rewrite <-Hd.
    replace (isValid && bool_decide (slotDiagnostics (dom w1) slot
                ++ flat_map (slotDiagnostics (dom w1)) slots = []))
      with (isValid && bool_decide (slotDiagnostics (dom w1) slot = [])
              && bool_decide (flat_map (slotDiagnostics (dom w1)) slots = [])).
    + apply IH.
    + rewrite <-andb_assoc. f_equal.
      destruct (slotDiagnostics (dom w1) slot); simpl; [| done].
      by destruct (flat_map _ slots).
Qed.

Lemma validate_reports root w :
  reports (validate root) w (validateDiagnostics (dom w) root)
          (bool_decide (validateDiagnostics (dom w) root = [])).
Proof.
  unfold validate, validateDiagnostics.
  apply reports_getDom. cbv beta zeta.
  set (slots := querySelectorAll (dom w) root "swapySlot").
  case_bool_decide as Hnone.
  - eapply reports_bind; [apply reports_error |]. intros w2 Hd.
    rewrite <-Hd. apply validateSlots_reports.
  - eapply (reports_bind _ _ _ [] _); [apply reports_ret |]. intros w2 Hd.
    rewrite <-Hd. simpl. apply validateSlots_reports.
Qed.

Lemma slotDiagnostics_nil h slot :
  slotDiagnostics h slot = [] ↔
  truthy (getData h slot "swapySlot") = true ∧
  (length (children h slot) ≤ 1)%nat ∧
  ∀ child, child ∈ children h slot → truthy (getData h child "swapyItem") = true.
Proof.
  unfold slotDiagnostics.
  destruct (truthy (getData h slot "swapySlot")); simpl; [| split; [done | by intros [? _]]].
  case_bool_decide as Hmany; simpl; [split; [done | intros (_ & ? & _); lia] |].
  destruct (children h slot) as [|c [|c' kids]]; simpl in *; [| | lia].
  - split; [| done]. intros _. split_and!; [done | lia |]. by intros ? ?%elem_of_nil.
  - destruct (truthy (getData h c "swapyItem")) eqn:Hc.
    + split; [| done]. intros _. split_and!; [done | lia |].
      by intros ? ->%list_elem_of_singleton.
    + split; [done |]. intros (_ & _ & Hall). rewrite Hall in Hc; [done | left].
Qed.

Lemma flat_map_nil {A B} (f : A → list B) (l : list A) :
  flat_map f l = [] ↔ ∀ x, x ∈ l → f x = [].
Proof.
  induction l as [|y l IH]; simpl.
  - split; [by intros _ ? ?%elem_of_nil | done].
  - split.
    + intros [Hy Hl]%app_eq_nil x [->|Hx]%elem_of_cons; [done |]. by apply IH.
    + intros Hall. rewrite (Hall y) by left. apply IH. intros x Hx. apply Hall. by right.
Qed.

Lemma validateDiagnostics_nil h root :
  validateDiagnostics h root = [] ↔ validMarkup h root.
Proof.
  unfold validateDiagnostics, validMarkup.
  set (slots := querySelectorAll h root "swapySlot").
  case_bool_decide as Hnone; simpl.
  - apply length_zero_iff_nil in Hnone. split; [done | by intros [? _]].
  - rewrite flat_map_nil. split.
    + intros Hall. split; [by intros ->|]. intros slot Hin.
      by apply slotDiagnostics_nil, Hall.
    + intros [_ Hall] slot Hin. by apply slotDiagnostics_nil, Hall.
Qed.

Lemma elem_of_flat_map_intro {A B} (f : A → list B) (l : list A) x y :
  x ∈ l → y ∈ f x → y ∈ flat_map f l.
Proof.
  intros Hx Hy. apply list_elem_of_In, in_flat_map. exists x.
  by rewrite <-!list_elem_of_In.
Qed.

(** C4, as stated, fails: not every violated rule yields a diagnostic of its
    own.  The slot of [crowdedDom] holds a labeled child and, behind it, a
    child without item id; [validate] looks at the first child only, and
    all it prints is the diagnostic for more than one child. *)
Lemma unlabeled_later_child_gets_no_diagnostic :
  let run := validate 0 (mkWorld crowdedDom [] [] []) in
  querySelectorAll crowdedDom 0 "swapySlot" = [1] ∧
  children crowdedDom 1 = [2; 3] ∧
  truthy (getData crowdedDom 3 "swapyItem") = false ∧
  run.2 = Returned false ∧
  console run.1 = [TooManyChildren (Some "s")].
Proof. vm_compute. repeat split; reflexivity. Qed.

(** C4, amended: [validate] returns [true] exactly on the markups that have
    at least one slot and whose every slot has a non-empty slot id, at most
    one child element and no child element without a non-empty item id.  It
    writes nothing to the store, and what it reports covers every slot of
    the subtree, without early exit: a diagnostic for a root without slots
    and, for each slot, one for an empty id, one for more than one child and
    one for a first child without item id.  The labeling diagnostic is about
    the first child only: a later child without item id gets none of its
    own, its slot has the diagnostic for more than one child. *)
Theorem validate_verdict_and_diagnostics root w :
  ∃ w' verdict diagnostics,
    validate root w = (w', Returned verdict) ∧
    dom w' = dom w ∧ mutations w' = mutations w ∧
    console w' = console w ++ diagnostics ∧
    (verdict = true ↔ validMarkup (dom w) root) ∧
    (verdict = true ↔ diagnostics = []) ∧
    (querySelectorAll (dom w) root "swapySlot" = [] → NoSlots root ∈ diagnostics) ∧
    (∀ slotId, UnlabeledChild slotId ∈ diagnostics →
       ∃ slot child, slot ∈ querySelectorAll (dom w) root "swapySlot" ∧
         getData (dom w) slot "swapySlot" = slotId ∧
         head (children (dom w) slot) = Some child ∧
         truthy (getData (dom w) child "swapyItem") = false) ∧
    ∀ slot, slot ∈ querySelectorAll (dom w) root "swapySlot" →
      let slotId := getData (dom w) slot "swapySlot" in
      (truthy slotId = false → MissingSlotId slot ∈ diagnostics) ∧
      (1 < length (children (dom w) slot) → TooManyChildren slotId ∈ diagnostics) ∧
      (∀ child, head (children (dom w) slot) = Some child →
         truthy (getData (dom w) child "swapyItem") = false →
         UnlabeledChild slotId ∈ diagnostics) ∧
      (∀ child, child ∈ children (dom w) slot →
         truthy (getData (dom w) child "swapyItem") = false →
         UnlabeledChild slotId ∈ diagnostics ∨ TooManyChildren slotId ∈ diagnostics).
Proof.
  destruct (validate_reports root w) as (w' & Hrun & Hd & Hm & _ & Hc).
  exists w', (bool_decide (validateDiagnostics (dom w) root = [])),
    (validateDiagnostics (dom w) root).
  split_and!; [done | done | done | done | | | | |].
  - by rewrite bool_decide_eq_true, validateDiagnostics_nil.
  - by rewrite bool_decide_eq_true.
  - intros Hnone. unfold validateDiagnostics. rewrite Hnone. simpl. left.
  - intros slotId. unfold validateDiagnostics. intros [Hin|Hin]%elem_of_app.
    { case_bool_decide; [| by apply elem_of_nil in Hin].
      by apply list_elem_of_singleton in Hin. }
    apply list_elem_of_In, in_flat_map in Hin as (slot & Hslot & Hin).
    apply list_elem_of_In in Hslot, Hin. exists slot.
    unfold slotDiagnostics in Hin. rewrite !elem_of_app in Hin.
    destruct Hin as [Hin | [Hin | Hin]].
    + destruct (truthy _); [by apply elem_of_nil in Hin |].
      by apply list_elem_of_singleton in Hin.
    + case_bool_decide; [| by apply elem_of_nil in Hin].
      by apply list_elem_of_singleton in Hin.
    + destruct (head (children (dom w) slot)) as [child|]; [| by apply elem_of_nil in Hin].
      destruct (truthy (getData (dom w) child "swapyItem")) eqn:Hitem;
        [by apply elem_of_nil in Hin |].
      apply list_elem_of_singleton in Hin as [= <-]. by exists child.
  - intros slot Hslot slotId.
    assert (∀ d, d ∈ slotDiagnostics (dom w) slot → d ∈ validateDiagnostics (dom w) root)
      as Hin.
    { intros d Hd'. unfold validateDiagnostics. apply elem_of_app. right.
      by eapply elem_of_flat_map_intro. }
    assert (1 < length (children (dom w) slot) →
            TooManyChildren slotId ∈ validateDiagnostics (dom w) root) as Hmany.
    { intros Hlen. apply Hin. unfold slotDiagnostics. fold slotId.
      rewrite bool_decide_eq_true_2 by done.
      apply elem_of_app. right. apply elem_of_app. left. left. }
    assert (∀ child, head (children (dom w) slot) = Some child →
              truthy (getData (dom w) child "swapyItem") = false →
              UnlabeledChild slotId ∈ validateDiagnostics (dom w) root) as Hfirst.
    { intros child Hhead Hitem. apply Hin. unfold slotDiagnostics. fold slotId.
      rewrite Hhead, Hitem. rewrite !elem_of_app. right. right. left. }
    split_and!; [| done | done |].
    + intros Hid. apply Hin. unfold slotDiagnostics. fold slotId. rewrite Hid.
      apply elem_of_app. left. left.
    + intros child Hchild Hitem.
      destruct (children (dom w) slot) as [|c [|c' kids]] eqn:Hkids.
      * by apply elem_of_nil in Hchild.
      * apply list_elem_of_singleton in Hchild as ->. left.
        by apply (Hfirst c).
      * right. apply Hmany. simpl. lia.
Qed.

(** ** Construction *)

Lemma returns_ret {A} (a : A) : returns (ret a).
Proof. intros w. by exists w, a. Qed.

Lemma returns_getDom : returns getDom.
Proof. intros w. by exists w, (dom w). Qed.

Lemma returns_setData el key value : returns (setData el key value).
Proof. intros w. by eexists _, tt. Qed.

Lemma returns_bind {A B} (m : M A) (f : A → M B) :
  returns m → (∀ a, returns (f a)) → returns (bind m f).
Proof.
  intros Hm Hf w. destruct (Hm w) as (w1 & a & Hrun).
  destruct (Hf a w1) as (w2 & b & Hrun2). exists w2, b.
  unfold bind. by rewrite Hrun, Hrun2.
Qed.

Lemma returns_forEach {A} (f : A → M unit) (l : list A) :
  (∀ x, returns (f x)) → returns (forEach f l).
Proof.
  intros Hf. induction l as [|x l IH]; simpl; [apply returns_ret |].
  apply returns_bind; [apply Hf | by intros _].
Qed.

Create HintDb returns discriminated.
#[local] Hint Resolve returns_ret returns_getDom returns_setData : returns.
#[local] Hint Extern 2 (returns (bind _ _)) => apply returns_bind; [| intros ?] : returns.
#[local] Hint Extern 2 (returns (forEach _ _)) => apply returns_forEach; intros ? : returns.
#[local] Hint Extern 3 (returns (if ?b then _ else _)) => destruct b : returns.
#[local] Hint Extern 3 (returns (match ?o with Some _ => _ | None => _ end)) =>
  destruct o : returns.

Lemma tagItemView_returns item : returns (tagItemView item).
Proof. unfold tagItemView. auto 10 with returns. Qed.

Lemma addVeloxiDataAttributes_returns root config pluginKey :
  returns (addVeloxiDataAttributes root config pluginKey).
Proof.
  pose proof tagItemView_returns.
  unfold addVeloxiDataAttributes. auto 30 with returns.
Qed.

Lemma newSwapy_returns rootEl : returns (newSwapy rootEl).
Proof. unfold newSwapy. auto with returns. Qed.

(** C5: [createSwapy] throws when the root is absent and throws when
    validation finds the markup invalid; whenever it throws, the store is
    what it was and no attribute has been written, and what comes back is
    the exception, not an instance.  An invalid markup has been reported
    on the console before the throw. *)
Theorem createSwapy_fails_before_tagging userConfig pluginKey w :
  createSwapy None userConfig pluginKey w = (w, Thrown MissingRoot) ∧
  (∀ rootEl, ¬ validMarkup (dom w) rootEl →
     ∃ w' d ds, createSwapy (Some rootEl) userConfig pluginKey w
                = (w', Thrown InvalidStructure) ∧
       dom w' = dom w ∧ mutations w' = mutations w ∧
       console w' = console w ++ d :: ds) ∧
  (∀ rootEl, validMarkup (dom w) rootEl →
     ∃ w' swapy, createSwapy (Some rootEl) userConfig pluginKey w
                 = (w', Returned swapy)) ∧
  (∀ root w' e, createSwapy root userConfig pluginKey w = (w', Thrown e) →
     dom w' = dom w ∧ mutations w' = mutations w).
Proof.
  assert (∀ rootEl, ∃ w1 verdict ds,
            validate rootEl w = (w1, Returned verdict) ∧
            dom w1 = dom w ∧ mutations w1 = mutations w ∧
            console w1 = console w ++ ds ∧
            (verdict = true ↔ validMarkup (dom w) rootEl) ∧
            (verdict = true ↔ ds = [])) as Hvalidate.
  { intros rootEl.
    destruct (validate_reports rootEl w) as (w1 & Hrun & Hd & Hm & _ & Hc).
    exists w1, (bool_decide (validateDiagnostics (dom w) rootEl = [])),
      (validateDiagnostics (dom w) rootEl).
    split_and!; [done | done | done | done | |].
    - by rewrite bool_decide_eq_true, validateDiagnostics_nil.
    - by rewrite bool_decide_eq_true. }
  assert (∀ rootEl w1, ∃ w' swapy,
            (pluginKey ←← addVeloxiDataAttributes rootEl (mergeConfig userConfig) pluginKey;
             newSwapy rootEl) w1 = (w', Returned swapy)) as Hbuild.
  { intros rootEl. apply returns_bind; [apply addVeloxiDataAttributes_returns |].
    intros _. apply newSwapy_returns. }
  split_and!.
  - done.
  - intros rootEl Hbad.
    destruct (Hvalidate rootEl) as (w1 & [] & ds & Hrun & Hd & Hm & Hc & Hv & Hds).
    { destruct Hbad. by apply Hv. }
    destruct ds as [|d ds]; [destruct Hds as [_ Hds]; by specialize (Hds eq_refl) |].
    exists w1, d, ds. simpl. unfold bind. rewrite Hrun. done.
  - intros rootEl Hok.
    destruct (Hvalidate rootEl) as (w1 & verdict & ds & Hrun & _ & _ & _ & Hv & _).
    apply Hv in Hok as ->. simpl. unfold bind at 1. rewrite Hrun. simpl.
    apply Hbuild.
  - intros [rootEl|] w' e; simpl; [| by intros [= <- _]].
    destruct (Hvalidate rootEl) as (w1 & verdict & ds & Hrun & Hd & Hm & _).
    unfold bind at 1. rewrite Hrun. destruct verdict; simpl.
    + destruct (Hbuild rootEl w1) as (w2 & swapy & ->). done.
    + by intros [= <- _].
Qed.

(** ** Trees *)

Lemma flat_map_ext_elem_of {A B} (f g : A → list B) (l : list A) :
  (∀ x, x ∈ l → f x = g x) → flat_map f l = flat_map g l.
Proof.
  induction l as [|y l IH]; intros Hext; simpl; [done |].
  rewrite (Hext y) by left. rewrite IH; [done |]. intros x Hx. apply Hext. by right.
Qed.

Lemma ranked_child rank h n nd c :
  ranked rank h → h !! n = Some nd → c ∈ childNodes nd → rank c < rank n.
Proof.
  intros Hr Hn Hc. destruct (Hr n nd Hn) as [_ Hall].
  rewrite Forall_forall in Hall. by apply Hall.
Qed.

Lemma subtree_fuel rank h k1 k2 n :
  ranked rank h → (rank n ≤ k1)%nat → (rank n ≤ k2)%nat →
  subtree k1 h n = subtree k2 h n.
Proof.
  intros Hr. revert k2 n. induction k1 as [|k1 IH]; intros [|k2] n H1 H2; simpl; try done.
  - destruct (h !! n) as [nd|] eqn:Hn; [| done].
    destruct (childNodes nd) as [|c cs] eqn:Hcs; [done |].
    assert (rank c < rank n) by (eapply ranked_child; [done.. | rewrite Hcs; left]). lia.
  - destruct (h !! n) as [nd|] eqn:Hn; [| done].
    destruct (childNodes nd) as [|c cs] eqn:Hcs; [done |].
    assert (rank c < rank n) by (eapply ranked_child; [done.. | rewrite Hcs; left]). lia.
  - destruct (h !! n) as [nd|] eqn:Hn; [| done].
    apply flat_map_ext_elem_of. intros c Hc. f_equal.
    assert (rank c < rank n) by (by eapply ranked_child).
    apply IH; lia.
Qed.

Lemma subtree_descendants rank h k n :
  ranked rank h → (rank n ≤ k)%nat → subtree k h n = descendants h n.
Proof.
  intros Hr Hk. unfold descendants. destruct (h !! n) as [nd|] eqn:Hn.
  - eapply subtree_fuel; [done | done |]. by destruct (Hr n nd Hn).
  - destruct k, (size h); simpl; by rewrite ?Hn.
Qed.

Lemma subtree_rank rank h k n x :
  ranked rank h → x ∈ subtree k h n → rank x < rank n.
Proof.
  intros Hr. revert n. induction k as [|k IH]; intros n; simpl.
  - by intros ?%elem_of_nil.
  - destruct (h !! n) as [nd|] eqn:Hn; [| by intros ?%elem_of_nil].
    intros (c & Hc & Hx)%list_elem_of_In%in_flat_map.
    apply list_elem_of_In in Hc, Hx.
    assert (rank c < rank n) by (by eapply ranked_child).
    apply elem_of_cons in Hx as [->|Hx]; [done |]. apply IH in Hx. lia.
Qed.

Lemma descendants_rank rank h n x :
  ranked rank h → x ∈ descendants h n → rank x < rank n.
Proof. apply subtree_rank. Qed.

(** In a forest the walk of [descendants] has fuel enough: it lists the
    nodes below its starting point, all of them. *)
Lemma descendants_below rank h n x :
  ranked rank h → x ∈ descendants h n ↔ below h n x.
Proof.
  intros Hr. split.
  - unfold descendants. generalize (size h) as k. intros k. revert n.
    induction k as [|k IH]; intros n; simpl; [by intros ?%elem_of_nil |].
    destruct (h !! n) as [nd|] eqn:Hn; [| by intros ?%elem_of_nil].
    intros (c & Hc & Hx)%list_elem_of_In%in_flat_map.
    apply list_elem_of_In in Hc, Hx.
    apply elem_of_cons in Hx as [->|Hx]; [by eapply below_child |].
    eapply below_deeper; [done | done | by apply IH].
  - assert (∀ n nd c y, h !! n = Some nd → c ∈ childNodes nd →
              y ∈ c :: descendants h c → y ∈ descendants h n) as Hstep.
    { intros m nd c y Hm Hc Hy.
      assert (rank c < rank m) as Hlt by (by eapply ranked_child).
      rewrite <-(subtree_descendants rank h (rank m) m) by done.
      destruct (rank m) as [|k]; [lia |]. simpl. rewrite Hm.
      apply list_elem_of_In, in_flat_map. exists c.
      rewrite <-!list_elem_of_In. split; [done |].
      by rewrite (subtree_descendants rank) by (done || lia). }
    induction 1 as [n nd c Hn Hc | n nd c x Hn Hc Hx IH].
    + eapply Hstep; [done | done | left].
    + eapply Hstep; [done | done | by right].
Qed.

(** In document order a node is followed by the nodes below it. *)
Lemma subtree_split rank h k n before a after :
  ranked rank h → (rank n ≤ k)%nat →
  subtree k h n = before ++ a :: after →
  ∃ rest, after = descendants h a ++ rest.
Proof.
  intros Hr. revert n before after.
  induction k as [|k IH]; intros n before after Hk; simpl.
  - by intros ?%app_cons_not_nil.
  - destruct (h !! n) as [nd|] eqn:Hn; [| by intros ?%app_cons_not_nil].
    assert (∀ c, c ∈ childNodes nd → (rank c ≤ k)%nat) as Hcs.
    { intros c Hc. assert (rank c < rank n) by (by eapply ranked_child). lia. }
    revert before Hcs.
    induction (childNodes nd) as [|c cs IHcs]; intros before Hcs; simpl.
    + by intros ?%app_cons_not_nil.
    + assert (∀ before, flat_map (λ c, c :: subtree k h c) cs = before ++ a :: after →
                ∃ rest, after = descendants h a ++ rest) as Hlater.
      { intros before' Heq. apply (IHcs before'); [| done].
        intros c' Hc'. apply Hcs. by right. }
      destruct before as [|b before]; simpl.
      * intros [= -> <-]. eexists.
        rewrite (subtree_descendants rank) by (try apply Hcs; done || left). done.
      * intros [= <- Heq]. apply app_eq_app in Heq as [l [[H1 H2]|[H1 H2]]].
        -- destruct l as [|a' l]; simpl in H2.
           ++ by apply (Hlater []).
           ++ injection H2 as <- ->.
              assert (∃ rest, l = descendants h a ++ rest) as [rest ->].
              { apply (IH c before l); [apply Hcs; left | done]. }
              exists (rest ++ flat_map (λ c, c :: subtree k h c) cs).
              by rewrite (assoc_L (++)).
        -- by apply (Hlater l).
Qed.

Lemma filter_split {A} (P : A → Prop) `{!∀ x, Decision (P x)} (l : list A) la a lb :
  filter P l = la ++ a :: lb →
  ∃ da db, l = da ++ a :: db ∧ filter P da = la ∧ filter P db = lb.
Proof.
  revert la. induction l as [|x l IH]; intros la.
  - by intros ?%app_cons_not_nil.
  - destruct (decide (P x)) as [Hx|Hx].
    + rewrite filter_cons_True by done. destruct la as [|y la]; simpl.
      * intros [= -> <-]. by exists [], l.
      * intros [= <- (da & db & -> & <- & <-)%IH].
        exists (x :: da), db. by rewrite filter_cons_True.
    + rewrite filter_cons_False by done.
      intros (da & db & -> & <- & <-)%IH.
      exists (x :: da), db. by rewrite filter_cons_False.
Qed.

(** ** Tagging as a list of writes *)

Lemma sameMarkup_refl h : sameMarkup h h.
Proof. done. Qed.

Lemma sameMarkup_trans h1 h2 h3 : sameMarkup h1 h2 → sameMarkup h2 h3 → sameMarkup h1 h3.
Proof.
  intros H12 H23 n. destruct (H12 n) as (-> & -> & Hk), (H23 n) as (-> & -> & Hk').
  split_and!; [done | done |]. intros key Hkey. by rewrite Hk, Hk'.
Qed.

Lemma sameMarkup_size h h' : sameMarkup h h' → size h = size h'.
Proof.
  intros Hs. rewrite <-!size_dom. f_equal. apply set_eq. intros n.
  rewrite !elem_of_dom. destruct (Hs n) as (Hk & _ & _).
  destruct (h !! n), (h' !! n); simpl in Hk; try done; split; by eauto.
Qed.

Lemma sameMarkup_subtree h h' k n : sameMarkup h h' → subtree k h n = subtree k h' n.
Proof.
  intros Hs. revert n. induction k as [|k IH]; intros n; simpl; [done |].
  destruct (Hs n) as (_ & Hc & _).
  destruct (h !! n) as [nd|], (h' !! n) as [nd'|]; simpl in Hc; try done.
  injection Hc as ->. apply flat_map_ext_elem_of. intros c _. by rewrite IH.
Qed.

Lemma sameMarkup_descendants h h' n : sameMarkup h h' → descendants h n = descendants h' n.
Proof.
  intros Hs. unfold descendants. rewrite (sameMarkup_size h h') by done.
  by apply sameMarkup_subtree.
Qed.

Lemma sameMarkup_isElement h h' n : sameMarkup h h' → isElement h n = isElement h' n.
Proof.
  intros Hs. unfold isElement. destruct (Hs n) as (Hk & _ & _).
  destruct (h !! n), (h' !! n); simpl in Hk; try done. by injection Hk as ->.
Qed.

Lemma sameMarkup_hasData h h' key n :
  sameMarkup h h' → key ∈ markupKeys → hasData h key n = hasData h' key n.
Proof.
  intros Hs Hkey. unfold hasData. rewrite (sameMarkup_isElement h h') by done.
  destruct (Hs n) as (_ & _ & Hd). by rewrite Hd.
Qed.

Lemma sameMarkup_querySelectorAll h h' root key :
  sameMarkup h h' → key ∈ markupKeys →
  querySelectorAll h root key = querySelectorAll h' root key.
Proof.
  intros Hs Hkey. unfold querySelectorAll.
  rewrite (sameMarkup_descendants h h') by done.
  apply list_filter_iff. intros el. by rewrite (sameMarkup_hasData h h').
Qed.

Lemma getData_applyWrite h wr el key :
  getData (applyWrite h wr) el key =
  if decide (wr.1.1 = el ∧ wr.1.2 = key)
  then (λ _, wr.2) <$> h !! el
  else getData h el key.
Proof.
  unfold getData, applyWrite. destruct (decide (wr.1.1 = el)) as [<-|Hel].
  - rewrite lookup_alter_eq. destruct (h !! wr.1.1) as [nd|]; simpl.
    + destruct (decide (wr.1.2 = key)) as [<-|Hkey].
      * rewrite decide_True by done. by rewrite lookup_insert_eq.
      * rewrite decide_False by tauto. by rewrite lookup_insert_ne.
    + by case_decide.
  - rewrite lookup_alter_ne by done. rewrite decide_False by tauto. done.
Qed.

Lemma applyWrite_sameMarkup h wr : taggerWrite wr → sameMarkup h (applyWrite h wr).
Proof.
  intros Hwr n. split_and!.
  - unfold applyWrite. destruct (decide (wr.1.1 = n)) as [<-|Hne].
    + rewrite lookup_alter_eq. by destruct (h !! wr.1.1).
    + by rewrite lookup_alter_ne.
  - unfold applyWrite. destruct (decide (wr.1.1 = n)) as [<-|Hne].
    + rewrite lookup_alter_eq. by destruct (h !! wr.1.1).
    + by rewrite lookup_alter_ne.
  - intros key Hkey. rewrite getData_applyWrite. rewrite decide_False; [done |].
    intros [_ <-]. by apply Hwr.
Qed.

Lemma applyWrites_sameMarkup h ws :
  Forall taggerWrite ws → sameMarkup h (foldl applyWrite h ws).
Proof.
  revert h. induction ws as [|wr ws IH]; intros h Hws; simpl; [apply sameMarkup_refl |].
  apply Forall_cons in Hws as [Hwr Hws].
  eapply sameMarkup_trans; [by apply applyWrite_sameMarkup | by apply IH].
Qed.

Lemma tags_ret {A} h0 (a : A) : tags h0 (ret a) [] a.
Proof. split; [done |]. intros w _. exists w. by rewrite app_nil_r. Qed.

Lemma tags_setData h0 el key value :
  key ∉ markupKeys → tags h0 (setData el key value) [(el, key, value)] tt.
Proof. intros Hkey. split; [by apply Forall_singleton |]. intros w _. by eexists. Qed.

Lemma tags_bind {A B} h0 (m : M A) (f : A → M B) ws1 ws2 a b :
  tags h0 m ws1 a → tags h0 (f a) ws2 b → tags h0 (bind m f) (ws1 ++ ws2) b.
Proof.
  intros [Hws1 Hm] [Hws2 Hf]. split; [by apply Forall_app |]. intros w Hw.
  destruct (Hm w Hw) as (w1 & Hrun1 & Hd1 & Hm1 & Hc1 & Hi1).
  destruct (Hf w1) as (w2 & Hrun2 & Hd2 & Hm2 & Hc2 & Hi2).
  { rewrite Hd1. eapply sameMarkup_trans; [done | by apply applyWrites_sameMarkup]. }
  exists w2. unfold bind. rewrite Hrun1, Hrun2.
  split_and!; [done | | | congruence | congruence].
  - by rewrite Hd2, Hd1, foldl_app.
  - unfold writeTrace. by rewrite Hm2, Hm1, fmap_app, (assoc_L (++)).
Qed.

Lemma tags_getDom {A} h0 (f : gmap nat Node → M A) ws a :
  Forall taggerWrite ws →
  (∀ h, sameMarkup h0 h → tags h0 (f h) ws a) → tags h0 (bind getDom f) ws a.
Proof.
  intros Hws Hf. split; [done |]. intros w Hw.
  destruct (Hf (dom w) Hw) as [_ Hrun]. by apply Hrun.
Qed.

Lemma tags_forEach {A} h0 (f : A → M unit) (g : A → list (nat * string * string)) l :
  (∀ x, tags h0 (f x) (g x) tt) → tags h0 (forEach f l) (flat_map g l) tt.
Proof.
  intros Hf. induction l as [|x l IH]; simpl; [apply tags_ret |].
  apply (tags_bind _ _ _ _ _ tt); [apply Hf | apply IH].
Qed.

Ltac not_markup :=
  unfold taggerWrite, markupKeys; cbn [fst snd]; rewrite list_elem_of_In; simpl;
  intuition discriminate.
Ltac is_markup := unfold markupKeys; rewrite list_elem_of_In; simpl; tauto.

Lemma tagItemView_tags h0 item : tags h0 (tagItemView item) (viewWrites h0 item) tt.
Proof.
  unfold tagItemView, viewWrites.
  apply (tags_bind _ _ _ _ _ tt); [apply tags_setData; not_markup |].
  assert (Forall taggerWrite (handleWrites h0 item)) as Hhandle.
  { unfold handleWrites. destruct (querySelector h0 item "swapyHandle"); [| done].
    apply Forall_singleton. not_markup. }
  apply tags_getDom.
  { apply Forall_app. split; [apply Forall_singleton; not_markup | done]. }
  intros h Hh. destruct (Hh item) as (_ & _ & Hd).
  rewrite <-(Hd "swapyItem") by is_markup.
  apply (tags_bind _ _ _ _ _ tt); [apply tags_setData; not_markup |].
  apply tags_getDom; [done |]. intros h' Hh'.
  unfold handleWrites, querySelector.
  rewrite <-(sameMarkup_querySelectorAll h0 h') by (done || is_markup).
  destruct (head (querySelectorAll h0 item "swapyHandle")).
  - apply tags_setData. not_markup.
  - apply tags_ret.
Qed.

Lemma resyncItem_tags h0 item : tags h0 (resyncItem item) (itemWrites h0 item) tt.
Proof.
  unfold resyncItem, itemWrites.
  assert (∀ key (els : list nat), key ∉ markupKeys →
            Forall taggerWrite (flat_map (λ el, [(el, key, "")]) els)) as Hflat.
  { intros key els Hkey. induction els; simpl; [done |]. by apply Forall_cons. }
  apply (tags_bind _ _ _ _ _ tt); [apply tagItemView_tags |].
  apply tags_getDom.
  { apply Forall_app. split; apply Hflat; not_markup. }
  intros h Hh. rewrite <-(sameMarkup_querySelectorAll h0 h) by (done || is_markup).
  apply (tags_bind _ _ _ _ _ tt).
  { apply tags_forEach. intros el. apply tags_setData. not_markup. }
  apply tags_getDom; [apply Hflat; not_markup |].
  intros h' Hh'. rewrite <-(sameMarkup_querySelectorAll h0 h') by (done || is_markup).
  apply tags_forEach. intros el. apply tags_setData. not_markup.
Qed.

Lemma resyncItems_tags_writes h root : Forall taggerWrite (resyncWrites h root).
Proof.
  destruct (tags_forEach h resyncItem (itemWrites h) (untaggedItems h root)) as [H _];
    [| done].
  intros item. apply resyncItem_tags.
Qed.

(** What [resyncItems] does: the writes of its untagged items, in order. *)
Lemma resyncItems_run root w :
  ∃ w', resyncItems root w
        = (w', Returned (bool_decide (0 < length (untaggedItems (dom w) root)))) ∧
    dom w' = foldl applyWrite (dom w) (resyncWrites (dom w) root) ∧
    mutations w' = mutations w ++ writeTrace (resyncWrites (dom w) root) ∧
    console w' = console w ∧ invoked w' = invoked w.
Proof.
  destruct (tags_forEach (dom w) resyncItem (itemWrites (dom w))
              (untaggedItems (dom w) root)) as [_ Hall].
  { intros item. apply resyncItem_tags. }
  destruct (Hall w (sameMarkup_refl _)) as (w' & Hrun & Hrest).
  exists w'. unfold resyncItems, bind, getDom. by rewrite Hrun.
Qed.

(** ** Reading the store after a list of writes *)

Lemma applyWrites_lookup_other h ws n :
  (∀ wr, wr ∈ ws → wr.1.1 ≠ n) → foldl applyWrite h ws !! n = h !! n.
Proof.
  revert h. induction ws as [|wr ws IH]; intros h Hws; simpl; [done |].
  rewrite IH by (intros ? ?; apply Hws; by right).
  unfold applyWrite. rewrite lookup_alter_ne; [done |]. apply Hws. left.
Qed.

Lemma applyWrites_getData_kept h ws el key value :
  getData h el key = Some value →
  (∀ wr, wr ∈ ws → wr.1.1 = el → wr.1.2 = key → wr.2 = value) →
  getData (foldl applyWrite h ws) el key = Some value.
Proof.
  revert h. induction ws as [|wr ws IH]; intros h Hget Hws; simpl; [done |].
  apply IH; [| intros ? ?; apply Hws; by right].
  rewrite getData_applyWrite. case_decide as Hhit; [| done].
  destruct Hhit as [Hel Hkey]. rewrite (Hws wr) by (done || left).
  unfold getData in Hget. by destruct (h !! el).
Qed.

Lemma applyWrites_is_Some h ws n : is_Some (h !! n) → is_Some (foldl applyWrite h ws !! n).
Proof.
  revert h. induction ws as [|wr ws IH]; intros h Hn; simpl; [done |].
  apply IH. unfold applyWrite. destruct (decide (wr.1.1 = n)) as [->|Hne].
  - rewrite lookup_alter_eq. destruct Hn as [nd ->]. by eexists.
  - by rewrite lookup_alter_ne.
Qed.

(** The last write to an attribute decides it. *)
Lemma applyWrites_last h ws1 ws2 el key value :
  is_Some (h !! el) →
  (∀ wr, wr ∈ ws2 → wr.1.1 = el → wr.1.2 = key → wr.2 = value) →
  getData (foldl applyWrite h (ws1 ++ (el, key, value) :: ws2)) el key = Some value.
Proof.
  intros Hel Hws2. rewrite foldl_app. simpl.
  apply applyWrites_getData_kept; [| done].
  rewrite getData_applyWrite. simpl. rewrite decide_True by done.
  destruct (applyWrites_is_Some h ws1 el Hel) as [nd ->]. done.
Qed.

Lemma applyWrites_agreed h ws el key value :
  is_Some (h !! el) → (el, key, value) ∈ ws →
  (∀ wr, wr ∈ ws → wr.1.1 = el → wr.1.2 = key → wr.2 = value) →
  getData (foldl applyWrite h ws) el key = Some value.
Proof.
  intros Hel (ws1 & ws2 & ->)%list_elem_of_split Hws.
  apply applyWrites_last; [done |]. intros wr Hwr. apply Hws.
  apply elem_of_app. right. by right.
Qed.

Lemma querySelector_elem_of h root key el :
  querySelector h root key = Some el → el ∈ querySelectorAll h root key.
Proof.
  unfold querySelector. destruct (querySelectorAll h root key); [done |].
  intros [= ->]. left.
Qed.

Lemma querySelectorAll_elem_of h root key el :
  el ∈ querySelectorAll h root key ↔ hasData h key el = true ∧ el ∈ descendants h root.
Proof. unfold querySelectorAll. by rewrite list_elem_of_filter. Qed.

Lemma hasData_is_Some h key el : hasData h key el = true → is_Some (h !! el).
Proof.
  unfold hasData, isElement. intros [H _]%andb_true_iff. by destruct (h !! el).
Qed.

Lemma untaggedItems_elem_of h root item :
  item ∈ untaggedItems h root ↔
  hasData h "velView" item = false ∧ hasData h "swapyItem" item = true ∧
  item ∈ descendants h root.
Proof.
  unfold untaggedItems. by rewrite list_elem_of_filter, querySelectorAll_elem_of.
Qed.

(** The five kinds of write of [resyncItem]. *)
Lemma elem_of_itemWrites h item wr :
  wr ∈ itemWrites h item ↔
  wr = (item, "velView", "item") ∨
  wr = (item, "velLayoutId", toDataString (getData h item "swapyItem")) ∨
  (∃ handle, querySelector h item "swapyHandle" = Some handle ∧
             wr = (handle, "velView", "handle")) ∨
  (∃ el, el ∈ querySelectorAll h item "swapyText" ∧ wr = (el, "velLayoutPosition", "")) ∨
  (∃ el, el ∈ querySelectorAll h item "swapyExclude" ∧ wr = (el, "velIgnore", "")).
Proof.
  assert (∀ key (els : list nat),
            wr ∈ flat_map (λ el, [(el, key, "")]) els ↔ ∃ el, el ∈ els ∧ wr = (el, key, ""))
    as Hflat.
  { intros key els. rewrite list_elem_of_In, in_flat_map. split.
    - intros (el & Hel & [<-|[]]). exists el. by rewrite list_elem_of_In.
    - intros (el & Hel & ->). exists el. rewrite <-list_elem_of_In. split; [done | by left]. }
  unfold itemWrites, viewWrites, handleWrites.
  rewrite !elem_of_app, !Hflat, !list_elem_of_singleton.
  destruct (querySelector h item "swapyHandle") as [handle|].
  - rewrite list_elem_of_singleton. split.
    + intros [[? | [? | ->]] | [? | ?]]; eauto 10.
    + intros [? | [? | [(hd & [= <-] & ->) | [? | ?]]]]; eauto 10.
  - split.
    + intros [[? | [? | []%elem_of_nil]] | [? | ?]]; eauto 10.
    + intros [? | [? | [(hd & [=] & _) | [? | ?]]]]; eauto 10.
Qed.

Lemma elem_of_resyncWrites h root wr :
  wr ∈ resyncWrites h root ↔
  ∃ item, item ∈ untaggedItems h root ∧ wr ∈ itemWrites h item.
Proof.
  unfold resyncWrites. rewrite list_elem_of_In, in_flat_map.
  split; intros (item & ? & ?); exists item; by rewrite ?list_elem_of_In in *.
Qed.

(** A write of [resyncItem] goes to the item or to a node below it. *)
Lemma itemWrites_target h item wr :
  wr ∈ itemWrites h item → wr.1.1 = item ∨ wr.1.1 ∈ descendants h item.
Proof.
  rewrite elem_of_itemWrites.
  intros [-> | [-> | [(hd & Hhd%querySelector_elem_of & ->) |
            [(el & Hel & ->) | (el & Hel & ->)]]]]; simpl; try (by left); right;
    by eapply querySelectorAll_elem_of.
Qed.

(** In document order an untagged item comes before the untagged items
    below it. *)
Lemma untaggedItems_below_after rank h root before item after el :
  ranked rank h →
  untaggedItems h root = before ++ item :: after →
  el ∈ descendants h item → el ∈ untaggedItems h root → el ∈ after.
Proof.
  intros Hr Hsplit Hbelow Hel. unfold untaggedItems in *.
  apply filter_split in Hsplit as (da & db & Hsplit & _ & <-).
  unfold querySelectorAll in *.
  apply filter_split in Hsplit as (Da & Db & Hsplit & _ & <-).
  apply list_elem_of_filter in Hel as [Hview Hel].
  apply list_elem_of_filter in Hel as [Hitem _].
  assert (∃ rest, Db = descendants h item ++ rest) as [rest ->].
  { unfold descendants in Hsplit. eapply (subtree_split rank); [done | | done].
    destruct (h !! root) as [nd|] eqn:Hroot; [by destruct (Hr root nd Hroot) |].
    destruct (size h); simpl in Hsplit; rewrite ?Hroot in Hsplit;
      by apply app_cons_not_nil in Hsplit. }
  apply list_elem_of_filter. split; [done |].
  apply list_elem_of_filter. split; [done |].
  apply elem_of_app. by left.
Qed.

(** ** What re-tagging leaves in the store *)

Lemma itemWrites_velView h item wr :
  wr ∈ itemWrites h item → wr.1.2 = "velView" →
  wr = (item, "velView", "item") ∨
  (querySelector h item "swapyHandle" = Some wr.1.1 ∧ wr.2 = "handle").
Proof.
  rewrite elem_of_itemWrites.
  intros [-> | [-> | [(hd & Hhd & ->) | [(el & _ & ->) | (el & _ & ->)]]]]; simpl;
    try discriminate; auto.
Qed.

Lemma handle_below h item handle :
  querySelector h item "swapyHandle" = Some handle → handle ∈ descendants h item.
Proof. intros Hq%querySelector_elem_of. by eapply querySelectorAll_elem_of. Qed.

Lemma untaggedItems_is_Some h root item :
  item ∈ untaggedItems h root → is_Some (h !! item).
Proof. intros (_ & Hitem & _)%untaggedItems_elem_of. by eapply hasData_is_Some. Qed.

(** Every untagged item ends as an item view. *)
Lemma resync_item_view rank h root item :
  ranked rank h → item ∈ untaggedItems h root →
  getData (foldl applyWrite h (resyncWrites h root)) item "velView" = Some "item".
Proof.
  intros Hr Hitem.
  destruct (list_elem_of_split_r _ _ Hitem) as (L1 & L2 & Hsplit & Hlast).
  assert (∃ rest, itemWrites h item = (item, "velView", "item") :: rest ∧
                  ∀ wr, wr ∈ rest → wr ∈ itemWrites h item) as (rest & Heq & Hrest).
  { eexists. split; [reflexivity |]. intros wr Hwr. by right. }
  unfold resyncWrites. rewrite Hsplit, flat_map_app. cbn [flat_map].
  rewrite Heq, <-app_comm_cons.
  apply applyWrites_last; [by eapply untaggedItems_is_Some |].
  intros wr [Hwr|Hwr]%elem_of_app Htarget Hkey.
  - apply Hrest in Hwr.
    destruct (itemWrites_velView _ _ _ Hwr Hkey) as [-> | [Hhandle _]]; [done |].
    apply handle_below, (descendants_rank rank) in Hhandle; [| done].
    rewrite Htarget in Hhandle. lia.
  - apply list_elem_of_In, in_flat_map in Hwr as (other & Hother & Hwr).
    apply list_elem_of_In in Hother, Hwr.
    destruct (itemWrites_velView _ _ _ Hwr Hkey) as [-> | [Hhandle _]]; [done |].
    destruct Hlast.
    apply list_elem_of_split in Hother as (L2a & L2b & ->).
    assert (item ∈ L2b) as Hin; [| apply elem_of_app; right; by right].
    apply (untaggedItems_below_after rank h root (L1 ++ item :: L2a) other L2b);
      [done | by rewrite Hsplit, <-(assoc_L (++)) | | done].
    rewrite <-Htarget. by apply handle_below.
Qed.

(** Every untagged item carries its item id as layout id. *)
Lemma resync_layout_id h root item :
  item ∈ untaggedItems h root →
  getData (foldl applyWrite h (resyncWrites h root)) item "velLayoutId"
  = Some (toDataString (getData h item "swapyItem")).
Proof.
  intros Hitem. apply applyWrites_agreed; [by eapply untaggedItems_is_Some | |].
  - apply elem_of_resyncWrites. exists item. split; [done |].
    apply elem_of_itemWrites. auto.
  - intros wr (other & _ & Hwr)%elem_of_resyncWrites Htarget Hkey.
    apply elem_of_itemWrites in Hwr
      as [-> | [-> | [(hd & _ & ->) | [(el & _ & ->) | (el & _ & ->)]]]];
      simpl in *; try discriminate. by subst.
Qed.

(** The handle of an untagged item ends as a handle view, unless it is an
    untagged item itself. *)
Lemma resync_handle_view h root item handle :
  item ∈ untaggedItems h root →
  querySelector h item "swapyHandle" = Some handle →
  handle ∉ untaggedItems h root →
  getData (foldl applyWrite h (resyncWrites h root)) handle "velView" = Some "handle".
Proof.
  intros Hitem Hhandle Hnot.
  apply applyWrites_agreed.
  - apply querySelector_elem_of, querySelectorAll_elem_of in Hhandle as [Hd _].
    by eapply hasData_is_Some.
  - apply elem_of_resyncWrites. exists item. split; [done |].
    apply elem_of_itemWrites. eauto 10.
  - intros wr (other & Hother & Hwr)%elem_of_resyncWrites Htarget Hkey.
    destruct (itemWrites_velView _ _ _ Hwr Hkey) as [-> | [_ ?]]; [| done].
    simpl in Htarget. by subst.
Qed.

(** The text and exclude marks below an untagged item are set. *)
Lemma resync_flag h root item key flag el :
  (key = "swapyText" ∧ flag = "velLayoutPosition") ∨
  (key = "swapyExclude" ∧ flag = "velIgnore") →
  item ∈ untaggedItems h root →
  el ∈ querySelectorAll h item key →
  getData (foldl applyWrite h (resyncWrites h root)) el flag = Some "".
Proof.
  intros Hkind Hitem Hel.
  apply applyWrites_agreed.
  - apply querySelectorAll_elem_of in Hel as [Hd _]. by eapply hasData_is_Some.
  - apply elem_of_resyncWrites. exists item. split; [done |].
    apply elem_of_itemWrites. destruct Hkind as [[-> ->] | [-> ->]]; eauto 10.
  - intros wr (other & _ & Hwr)%elem_of_resyncWrites _ Hkey.
    apply elem_of_itemWrites in Hwr
      as [-> | [-> | [(hd & _ & ->) | [(x & _ & ->) | (x & _ & ->)]]]];
      simpl in *; destruct Hkind as [[_ ->] | [_ ->]]; done.
Qed.

(** A node that is no untagged item and lies below none is what it was. *)
Lemma resync_frame h root n :
  n ∉ untaggedItems h root →
  (∀ item, item ∈ untaggedItems h root → n ∉ descendants h item) →
  foldl applyWrite h (resyncWrites h root) !! n = h !! n.
Proof.
  intros Hnot Hbelow. apply applyWrites_lookup_other.
  intros wr (item & Hitem & Hwr)%elem_of_resyncWrites Htarget.
  apply itemWrites_target in Hwr as [Heq | Hin].
  - apply Hnot. by rewrite <-Htarget, Heq.
  - apply (Hbelow item); [done |]. by rewrite <-Htarget.
Qed.

(** In a forest the root is above every untagged item: it is not written. *)
Lemma resync_root rank h root :
  ranked rank h → foldl applyWrite h (resyncWrites h root) !! root = h !! root.
Proof.
  intros Hr. apply resync_frame.
  - intros (_ & _ & Hin)%untaggedItems_elem_of.
    apply (descendants_rank rank) in Hin; [lia | done].
  - intros item (_ & _ & Hin)%untaggedItems_elem_of Hroot.
    apply (descendants_rank rank) in Hin; [| done].
    apply (descendants_rank rank) in Hroot; [lia | done].
Qed.

(** ** The live-tree watcher *)

Lemma World_eq w w' :
  dom w' = dom w → mutations w' = mutations w → console w' = console w →
  invoked w' = invoked w → w' = w.
Proof. destruct w, w'; simpl. by intros -> -> -> ->. Qed.

(** C8, as stated, fails, twice.  In [nestedDom] the untagged item [a]
    (node 2) holds node 3, which is item-marked, handle-marked and tagged as
    an item view.  The batch tags [a] and writes the handle view on node 3:
    an element that was already tagged is written.  Node 3 is then
    item-marked without the item-view marker, yet the next batch finds no
    item to tag and changes nothing: what the watcher looks for is an item
    without any view marker. *)
Lemma watcher_overwrites_tagged_and_skips_marked :
  let this := mkSwapy 0 (_createSlotElMap nestedDom 0) (_createItemElMap nestedDom 0)
                      None None in
  let run := onMutations [mkMutationRecord childList] this (mkWorld nestedDom [] [] []) in
  let this1 := outcomeValue this run.2 in
  let again := onMutations [mkMutationRecord childList] this1 run.1 in
  untaggedItems nestedDom 0 = [2] ∧
  getData nestedDom 3 "velView" = Some "item" ∧
  getData (dom run.1) 3 "velView" = Some "handle" ∧
  getData (dom run.1) 3 "swapyItem" = Some "b" ∧
  untaggedItems (dom run.1) 0 = [] ∧
  again = (run.1, Returned this1) ∧
  getData (dom again.1) 3 "velView" = Some "handle".
Proof. vm_compute. repeat split; reflexivity. Qed.

(** C8, amended: a batch without a child-list change, or one that finds no
    item-marked element without view marker, changes neither the store nor
    the registries.  Otherwise every item-marked element without view marker
    ends as an item view with its item id as layout id, its handle as a
    handle view unless the handle is such an item itself (it then ends as
    an item view), and the text and exclude marks below it are set; the tree
    and the authored attributes stay; a node that is no such item and lies
    below none, the root among them, is not written; and both registries
    are rebuilt from the store as tagged. *)
Theorem watcher_retags_and_rebuilds rank records this w :
  ranked rank (dom w) →
  let root := _rootEl this in
  let items := untaggedItems (dom w) root in
  ∃ w' this', onMutations records this w = (w', Returned this') ∧
    (existsb isChildList records = false ∨ items = [] → w' = w ∧ this' = this) ∧
    (existsb isChildList records = true →
       (∀ item, item ∈ items → retagged (dom w) (dom w') items item) ∧
       sameMarkup (dom w) (dom w') ∧
       (∀ n, n ∉ items → (∀ item, item ∈ items → n ∉ descendants (dom w) item) →
          dom w' !! n = dom w !! n) ∧
       dom w' !! root = dom w !! root ∧
       (items ≠ [] →
          this' = setRegistries (_createSlotElMap (dom w') root)
                                (_createItemElMap (dom w') root) this)).
Proof.
  intros Hr root items. unfold onMutations.
  destruct (existsb isChildList records) eqn:Hbatch.
  - destruct (resyncItems_run root w) as (w' & Hrun & Hd & Hm & Hc & Hi).
    fold root. unfold bind at 1. rewrite Hrun. clear Hrun. fold items.
    assert ((∀ item, item ∈ items → retagged (dom w) (dom w') items item) ∧
            sameMarkup (dom w) (dom w') ∧
            (∀ n, n ∉ items → (∀ item, item ∈ items → n ∉ descendants (dom w) item) →
               dom w' !! n = dom w !! n) ∧
            dom w' !! root = dom w !! root) as Htagged.
    { rewrite Hd. split_and!.
      - intros item Hitem. split_and!.
        + by eapply resync_item_view.
        + rewrite resync_layout_id by done.
          apply untaggedItems_elem_of in Hitem as (_ & Hid & _).
          unfold hasData in Hid. apply andb_true_iff in Hid as [_ Hid].
          apply bool_decide_eq_true in Hid as [id ->]. done.
        + intros handle ? ?. by eapply resync_handle_view.
        + intros el ?. eapply resync_flag; [by left | done | done].
        + intros el ?. eapply resync_flag; [by right | done | done].
      - apply applyWrites_sameMarkup. apply (resyncItems_tags_writes (dom w) root).
      - intros n ? ?. by apply resync_frame.
      - by eapply resync_root. }
    destruct (bool_decide (0 < length items)) eqn:Hfound.
    + apply bool_decide_eq_true in Hfound.
      eexists _, _. split; [reflexivity |]. split.
      * intros [? | Hnone]; [done |]. rewrite Hnone in Hfound. simpl in Hfound. lia.
      * intros _. destruct Htagged as (? & ? & ? & ?). done.
    + apply bool_decide_eq_false in Hfound.
      assert (items = []) as Hnone by (destruct items; simpl in Hfound; [done | lia]).
      exists w', this. split; [done |]. split.
      * intros _. split; [| done]. apply World_eq; try done.
        -- rewrite Hd. unfold resyncWrites. fold items. by rewrite Hnone.
        -- rewrite Hm. unfold resyncWrites. fold items. rewrite Hnone. apply app_nil_r.
      * intros _. destruct Htagged as (? & ? & ? & ?). done.
  - exists w, this. split; [done |]. split; [done | done].
Qed.

Lemma watcher_retags_and_rebuilds_witness :
  let this := mkSwapy 0 (_createSlotElMap demoDom 0) (_createItemElMap demoDom 0)
                      None None in
  let run := onMutations [mkMutationRecord childList] this (mkWorld lateDom [] [] []) in
  getData (dom run.1) 4 "velView" = Some "item" ∧
  getData (dom run.1) 4 "velLayoutId" = Some "z" ∧
  getData (dom run.1) 5 "velView" = Some "handle" ∧
  getData (dom run.1) 6 "velLayoutPosition" = Some "" ∧
  dom run.1 !! 3 = lateDom !! 3 ∧
  dom run.1 !! 0 = lateDom !! 0 ∧
  _itemElMap (outcomeValue this run.2) !! "z" = Some 4.
Proof.
  intros this run.
  destruct (watcher_retags_and_rebuilds lateRank [mkMutationRecord childList] this
              (mkWorld lateDom [] [] [])) as (w' & this' & Hrun & _ & Htagged).
  { unfold ranked. apply (bool_decide_unpack _). vm_compute. exact I. }
  destruct (Htagged eq_refl) as (Hitems & _ & Hframe & Hroot & Hrebuilt).
  assert (untaggedItems lateDom 0 = [4]) as Huntagged by (vm_compute; reflexivity).
  simpl in Hitems, Hframe, Hroot, Hrebuilt. rewrite Huntagged in *.
  destruct (Hitems 4) as (Hview & Hid & Hhandle & Htext & _); [left |].
  subst run. rewrite Hrun. simpl. split_and!.
  - exact Hview.
  - rewrite Hid. vm_compute. reflexivity.
  - apply Hhandle; [vm_compute; reflexivity |].
    intros [[=]|[]%elem_of_nil]%elem_of_cons.
  - apply Htext. vm_compute. left.
  - apply Hframe.
    + intros [[=]|[]%elem_of_nil]%elem_of_cons.
    + intros item ->%list_elem_of_singleton. vm_compute.
      intros [[=]|[[=]|[]%elem_of_nil]%elem_of_cons]%elem_of_cons.
  - exact Hroot.
  - rewrite Hrebuilt by done. simpl.
    assert (sameMarkup lateDom (dom w')) as Hsame by (by destruct (Htagged eq_refl) as (_ & ? & _)).
    unfold _createItemElMap, createElMap.
    rewrite <-(sameMarkup_querySelectorAll lateDom (dom w')) by (done || is_markup).
    assert (querySelectorAll lateDom 0 "swapyItem" = [3; 4]) as -> by (vm_compute; reflexivity).
    simpl. unfold registerEl.
    destruct (Hsame 3) as (_ & _ & H3), (Hsame 4) as (_ & _ & H4).
    rewrite <-(H3 "swapyItem"), <-(H4 "swapyItem") by is_markup.
    vm_compute. reflexivity.
Defined.

(** ** Further properties of the adapter *)

Lemma foldl_registerEl_lookup h key id (els : list nat) (acc : gmap string nat) :
  foldl (registerEl h key) acc els !! id =
  match last (filter (λ el, getData h el key = Some id) els) with
  | Some el => Some el
  | None => acc !! id
  end.
Proof.
  revert acc. induction els as [|x els IH]; intros acc; simpl; [done |].
  rewrite IH. unfold registerEl.
  destruct (decide (getData h x key = Some id)) as [Hx|Hx].
  - rewrite filter_cons_True by done. rewrite Hx, lookup_insert_eq, last_cons.
    by destruct (last _).
  - rewrite filter_cons_False by done.
    destruct (last (filter _ els)); [done |].
    destruct (getData h x key) as [id'|]; [| done].
    rewrite lookup_insert_ne; [done | congruence].
Qed.

(** A registry maps an id to the last element, in document order, that
    carries it: of two slots or items with one id the later one wins. *)
Theorem registry_last_element_wins h root key id :
  createElMap h root key !! id
  = last (filter (λ el, getData h el key = Some id) (querySelectorAll h root key)).
Proof.
  unfold createElMap. rewrite foldl_registerEl_lookup, lookup_empty.
  by destruct (last _).
Qed.

(** The scenario of the specification: over [left:x, right:y] the init
    event moves nothing, and the swap event for [left:y, right:x] puts [y]
    into the left slot and [x] into the right one and calls the host once. *)
Theorem demo_scenario :
  let init := onInitEvent demoBaseline (demoSwapy None) demoWorld in
  let swap := onSwapEvent demoSwap (outcomeValue (demoSwapy None) init.2) init.1 in
  init.1 = demoWorld ∧
  childNodesOf (dom swap.1) 1 = [4] ∧ childNodesOf (dom swap.1) 2 = [3] ∧
  mutations swap.1
  = [ClearChildren 1; AppendChild 1 4; ClearChildren 2; AppendChild 2 3] ∧
  invoked swap.1 = [(quietCallback 7, demoSwap)] ∧
  _previousMap (outcomeValue (demoSwapy None) swap.2) = Some (data_map demoSwap).
Proof. vm_compute. repeat split; reflexivity. Qed.

(** Late insertion: with the registries as built, the new item [z] of
    [lateDom] cannot be placed and the left slot is left empty; once the
    watcher has seen [z], the same candidate map moves it there. *)
Theorem late_item_is_placed :
  let this := mkSwapy 0 (_createSlotElMap demoDom 0) (_createItemElMap demoDom 0)
                      None (Some [("left", Some "x"); ("right", Some "z")]) in
  let map := [("left", Some "z"); ("right", Some "x")] in
  let stale := _applyOrder this map (mkWorld lateDom [] [] []) in
  let seen := onMutations [mkMutationRecord childList] this (mkWorld lateDom [] [] []) in
  let fresh := _applyOrder (outcomeValue this seen.2) map seen.1 in
  childNodesOf (dom stale.1) 1 = [] ∧ childNodesOf (dom stale.1) 2 = [3] ∧
  childNodesOf (dom fresh.1) 1 = [4] ∧ childNodesOf (dom fresh.1) 2 = [3].
Proof. vm_compute. repeat split; reflexivity. Qed.

(** No early exit: a root whose first slot has no id and two children, the
    first of them without item id, and whose second slot is in order, gets
    the three diagnostics of the first slot and is rejected. *)
Theorem validate_collects_every_violation :
  let h := list_to_map [(0, demoElement [] [1; 2]);
                        (1, demoElement [("swapySlot", "")] [3; 4]);
                        (2, demoElement [("swapySlot", "right")] [5]);
                        (3, demoElement [] []);
                        (4, demoElement [("swapyItem", "y")] []);
                        (5, demoElement [("swapyItem", "z")] [])] in
  let run := validate 0 (mkWorld h [] [] []) in
  run.2 = Returned false ∧
  console run.1 = [MissingSlotId 1; TooManyChildren (Some ""); UnlabeledChild (Some "")].
Proof. vm_compute. split; reflexivity. Qed.

(** ** What the diff does to the store *)

Lemma placementOf_intro this map slotName itemName slot item :
  Map_get map slotName ≠ previousGet this slotName →
  Map_get map slotName = Some (Some itemName) → itemName ≠ "" →
  _slotElMap this !! slotName = Some slot →
  _itemElMap this !! itemName = Some item →
  placementOf this map slotName = Some (slot, item).
Proof.
  intros Hch Hget Hne Hslot Hitem. unfold placementOf.
  rewrite bool_decide_eq_false_2 by done. rewrite Hget. simpl.
  rewrite bool_decide_eq_false_2 by done. by rewrite Hslot, Hitem.
Qed.

Lemma applyDom_is_Some this map ks h n :
  is_Some (h !! n) → is_Some (foldl (applyDom this map) h ks !! n).
Proof.
  revert h. induction ks as [|k ks IH]; intros h Hn; simpl; [done |].
  apply IH. unfold applyDom. destruct (placementOf this map k) as [sp|]; [| done].
  rewrite placeDom_lookup. destruct Hn as [nd ->]. by eexists.
Qed.

(** A completed diff realises the candidate map: every slot the run places
    an item into ends up holding that item and nothing else, and the item
    is the child of no other node. *)
Theorem applyOrder_fills_every_slot this map w w' slotName itemName slot item :
  NoDup (Map_keys map) → itemsAssignedOnce map →
  registryInjective (_slotElMap this) → registryInjective (_itemElMap this) →
  _applyOrder this map w = (w', Returned tt) →
  Map_get map slotName ≠ previousGet this slotName →
  Map_get map slotName = Some (Some itemName) → itemName ≠ "" →
  _slotElMap this !! slotName = Some slot →
  _itemElMap this !! itemName = Some item →
  is_Some (dom w !! slot) →
  childNodesOf (dom w') slot = [item] ∧
  ∀ n, n ≠ slot → item ∉ childNodesOf (dom w') n.
Proof.
  intros Hkeys Honce Hslots Hitems Hrun Hch Hget Hne Hslot Hitem Hlive.
  apply applyOrderIn_returned in Hrun as [-> _].
  pose proof (placementOf_intro _ _ _ _ _ _ Hch Hget Hne Hslot Hitem) as Hsp.
  destruct (list_elem_of_split (Map_keys map) slotName) as (ks1 & ks2 & Hsplit).
  { by eapply Map_get_Some_key. }
  assert (Map_keys map ≡ₚ (ks1 ++ ks2) ++ [slotName]) as Hperm.
  { rewrite Hsplit. rewrite <-(assoc_L (++)).
    apply Permutation_app_head. apply Permutation_cons_append. }
  rewrite (foldl_Permutation_comm (applyDom this map) _ _ Hperm Hkeys)
    by (intros k1 k2 h _ _ ?; by apply applyDom_comm).
  rewrite foldl_app. simpl. unfold applyDom at 1 3. rewrite Hsp.
  set (h := foldl (applyDom this map) (dom w) (ks1 ++ ks2)).
  assert (is_Some (h !! slot)) as [nd Hnd] by (by apply applyDom_is_Some).
  unfold childNodesOf. split.
  - rewrite placeDom_lookup, Hnd. simpl. by rewrite decide_True.
  - intros n Hn. rewrite placeDom_lookup. simpl.
    destruct (h !! n) as [nd'|]; simpl; [| apply not_elem_of_nil].
    rewrite decide_False by done. simpl.
    rewrite list_elem_of_filter. by intros [? _].
Qed.

Lemma applyOrder_fills_every_slot_witness :
  let this := demoSwapy (Some demoBaseline) in
  let run := _applyOrder this (data_map demoSwap) demoWorld in
  childNodesOf (dom run.1) 1 = [4] ∧ ∀ n, n ≠ 1 → 4 ∉ childNodesOf (dom run.1) n.
Proof.
  intros this run.
  apply (applyOrder_fills_every_slot this (data_map demoSwap) demoWorld run.1 "left" "y").
  - apply (bool_decide_unpack _). vm_compute. exact I.
  - apply (bool_decide_unpack _). vm_compute. exact I.
  - apply createElMap_injective.
  - apply createElMap_injective.
  - vm_compute. reflexivity.
  - vm_compute. congruence.
  - reflexivity.
  - done.
  - vm_compute. reflexivity.
  - vm_compute. reflexivity.
  - vm_compute. by eexists.
Defined.

Lemma place_reparents sp w w1 r n :
  place sp w = (w1, r) →
  nodeKind <$> dom w1 !! n = nodeKind <$> dom w !! n ∧
  dataset <$> dom w1 !! n = dataset <$> dom w !! n ∧
  ∀ c, c ∈ childNodesOf (dom w1) n →
       c ∈ childNodesOf (dom w) n ∨ (n = sp.1 ∧ c = sp.2).
Proof.
  intros Hrun.
  destruct (place_run sp w) as [(w2 & Heq & Hd & _)|Heq]; rewrite Heq in Hrun;
    injection Hrun as <- <-.
  - rewrite Hd. unfold childNodesOf. destruct (decide (n = sp.1)) as [->|Hne].
    + rewrite lookup_alter_eq.
      destruct (dom w !! sp.1); simpl; split_and!; try done; by intros c ?%elem_of_nil.
    + rewrite lookup_alter_ne by done. split_and!; [done | done | by left].
  - cbn [dom]. unfold childNodesOf. rewrite placeDom_lookup.
    destruct (dom w !! n) as [nd|]; simpl;
      [| split_and!; [done | done | by intros c ?%elem_of_nil]].
    split_and!; [done | done |]. intros c Hc.
    destruct (decide (n = sp.1)) as [->|Hne].
    + apply list_elem_of_singleton in Hc as ->. by right.
    + apply list_elem_of_filter in Hc as [_ Hc]. by left.
Qed.

Lemma applyOrderIn_reparents ks this map w w' r n :
  applyOrderIn ks this map w = (w', r) →
  nodeKind <$> dom w' !! n = nodeKind <$> dom w !! n ∧
  dataset <$> dom w' !! n = dataset <$> dom w !! n ∧
  ∀ c, c ∈ childNodesOf (dom w') n →
       c ∈ childNodesOf (dom w) n ∨
       ∃ k, k ∈ ks ∧ placementOf this map k = Some (n, c).
Proof.
  unfold applyOrderIn. revert w. induction ks as [|k ks IH]; intros w; simpl.
  - intros [= <- <-]. split_and!; [done | done | by left].
  - unfold bind at 1. rewrite applySlot_placementOf.
    destruct (placementOf this map k) as [sp|] eqn:Hsp.
    + destruct (place sp w) as [w1 [[]|e]] eqn:Hplace.
      * intros (Hk & Hd & Hc)%IH.
        destruct (place_reparents _ _ _ _ n Hplace) as (Hk1 & Hd1 & Hc1).
        split_and!; [congruence | congruence |]. intros c [Hin|(k' & ? & ?)]%Hc.
        -- apply Hc1 in Hin as [?|[-> ->]]; [by left |]. right. exists k.
           split; [left | by destruct sp].
        -- right. exists k'. split; [by right | done].
      * intros [= <- <-].
        destruct (place_reparents _ _ _ _ n Hplace) as (Hk1 & Hd1 & Hc1).
        split_and!; [done | done |]. intros c [?|[-> ->]]%Hc1; [by left |].
        right. exists k. split; [left | by destruct sp].
    + intros (Hk & Hd & Hc)%IH. split_and!; [done | done |].
      intros c [?|(k' & ? & ?)]%Hc; [by left |]. right. exists k'. split; [by right | done].
Qed.

(** The diff only reparents.  However a run ends, it changes no attribute
    and no node kind, adds and removes no node, and writes nothing to the
    console or the host; and a child a node holds afterwards was its child
    before or is an item the candidate map names for the slot the node is
    registered as. *)
Theorem diff_only_reparents this map w :
  let run := _applyOrder this map w in
  console run.1 = console w ∧ invoked run.1 = invoked w ∧
  ∀ n, nodeKind <$> dom run.1 !! n = nodeKind <$> dom w !! n ∧
       dataset <$> dom run.1 !! n = dataset <$> dom w !! n ∧
       ∀ c, c ∈ childNodesOf (dom run.1) n →
            c ∈ childNodesOf (dom w) n ∨
            ∃ slotName itemName,
              Map_get map slotName = Some (Some itemName) ∧
              _slotElMap this !! slotName = Some n ∧
              _itemElMap this !! itemName = Some c.
Proof.
  intros run. assert (_applyOrder this map w = (run.1, run.2)) as Hrun
    by apply surjective_pairing.
  destruct (applyOrderIn_trace _ _ _ _ _ _ Hrun) as (_ & Hc & Hi & _).
  split_and!; [done | done |]. intros n.
  destruct (applyOrderIn_reparents _ _ _ _ _ _ n Hrun) as (Hk & Hd & Hch).
  split_and!; [done | done |]. intros c [?|(k & _ & Hsp)]%Hch; [by left |].
  apply placementOf_Some in Hsp as (_ & itemName & ? & _ & ? & ?).
  right. by exists k, itemName.
Qed.

Lemma place_thrown sp w w' e :
  place sp w = (w', Thrown e) →
  e = HierarchyRequestError ∧
  dom w' = alter (withChildNodes []) sp.1 (dom w) ∧
  mutations w' = mutations w ++ [ClearChildren sp.1] ∧
  sp.1 ∈ sp.2 :: descendants (dom w') sp.2.
Proof.
  unfold place, bind, clearChildren, appendChild; simpl.
  case_bool_decide as Hin; [| done]. by intros [= <- <-].
Qed.

Lemma applyOrderIn_thrown ks this map w w' e :
  applyOrderIn ks this map w = (w', Thrown e) →
  e = HierarchyRequestError ∧
  ∃ k sp ms, k ∈ ks ∧ placementOf this map k = Some sp ∧
    mutations w' = mutations w ++ ms ++ [ClearChildren sp.1] ∧
    childNodesOf (dom w') sp.1 = [] ∧
    sp.1 ∈ sp.2 :: descendants (dom w') sp.2.
Proof.
  unfold applyOrderIn. revert w. induction ks as [|k ks IH]; intros w; simpl; [done |].
  unfold bind at 1. rewrite applySlot_placementOf.
  destruct (placementOf this map k) as [sp|] eqn:Hsp.
  - destruct (place sp w) as [w1 [[]|e1]] eqn:Hplace.
    + destruct (place_run sp w) as [(w2 & Heq & _)|Heq]; rewrite Heq in Hplace; [done |].
      injection Hplace as <-.
      intros (-> & k' & sp' & ms & Hk' & Hsp' & Hm & Hrest)%IH. split; [done |].
      exists k', sp', (placeTrace sp ++ ms). split_and!; [by right | done | | apply Hrest..].
      rewrite Hm. simpl. by rewrite <-!(assoc_L (++)).
    + intros [= <- <-]. apply place_thrown in Hplace as (-> & Hd & Hm & Hin).
      split; [done |]. exists k, sp, []. split_and!; [left | done | done | | done].
      rewrite Hd. unfold childNodesOf. rewrite lookup_alter_eq.
      by destruct (dom w !! sp.1).
  - intros (-> & k' & sp' & ms & Hk' & Hsp' & Hrest)%IH. split; [done |].
    exists k', sp', ms. split_and!; [by right | done | apply Hrest..].
Qed.





(** The two ways the swap handler fails.  Either [appendChild] refuses to
    put an item into a slot that is the item itself or lies below it: by
    then the slot has been emptied, and the callback is not called.  Or the
    diff went through and the callback, called once, threw.  Either way no
    new snapshot is stored (no instance is returned) and nothing is
    printed. *)
Theorem swap_handler_failures event this w w' e :
  onSwapEvent event this w = (w', Thrown e) →
  console w' = console w ∧
  ((e = HierarchyRequestError ∧ invoked w' = invoked w ∧
    ∃ slotName itemName slot item ms,
      Map_get (data_map event) slotName = Some (Some itemName) ∧
      _slotElMap this !! slotName = Some slot ∧
      _itemElMap this !! itemName = Some item ∧
      mutations w' = mutations w ++ ms ++ [ClearChildren slot] ∧
      childNodesOf (dom w') slot = [] ∧
      (slot = item ∨ slot ∈ descendants (dom w') item)) ∨
   (e = HostError ∧
    ∃ callback w1,
      _swapCallback this = Some callback ∧ callbackThrows callback event = true ∧
      _applyOrder this (data_map event) w = (w1, Returned tt) ∧
      dom w' = dom w1 ∧ mutations w' = mutations w1 ∧
      invoked w' = invoked w ++ [(callback, event)])).
Proof.
  intros Hrun.
  destruct (suppressed this event) eqn:Hs.
  { unfold onSwapEvent in Hrun. by rewrite Hs in Hrun. }
  destruct (onSwapEvent_effective _ _ _ _ _ Hs Hrun) as (w1 & [[]|e1] & Happly & Hr).
  - destruct Hr as (Hr & Hd & Hm & Hc & Hi).
    pose proof (applyOrderIn_returned _ _ _ _ _ Happly) as (_ & _ & Hc1 & Hi1).
    split; [congruence |]. right.
    unfold callbackTrace in Hi. unfold callbackFails in Hr.
    destruct (_swapCallback this) as [callback|]; [| done].
    destruct (callbackThrows callback event) eqn:Hthrows; [| done].
    injection Hr as ->. split; [done |]. exists callback, w1.
    split_and!; [done | done | done | done | done | by rewrite Hi, Hi1].
  - destruct Hr as [[= <-] ->].
    destruct (applyOrderIn_trace _ _ _ _ _ _ Happly) as (_ & Hc & Hi & _).
    apply applyOrderIn_thrown in Happly
      as (-> & k & sp & ms & _ & Hsp & Hm & Hempty & Hin).
    split; [done |]. left. split_and!; [done | done |].
    apply placementOf_Some in Hsp as (_ & itemName & ? & _ & ? & ?).
    exists k, itemName, sp.1, sp.2, ms. split_and!; try done.
    apply elem_of_cons in Hin as [?|?]; [by left | by right].
Qed.

(** The two items change places and the callback throws: the items have
    moved and the call is on record. *)
Lemma swap_handler_failures_witness :
  let this := mkSwapy 0 (_createSlotElMap demoDom 0) (_createItemElMap demoDom 0)
                      (Some (throwingCallback 7)) (Some demoBaseline) in
  let run := onSwapEvent demoSwap this demoWorld in
  run.2 = Thrown HostError ∧
  invoked run.1 = [(throwingCallback 7, demoSwap)] ∧
  mutations run.1 = [ClearChildren 1; AppendChild 1 4; ClearChildren 2; AppendChild 2 3].
Proof.
  intros this run.
  assert (run = (run.1, Thrown HostError)) as Hrun by (vm_compute; reflexivity).
  destruct (swap_handler_failures demoSwap this demoWorld run.1 HostError Hrun)
    as [_ [[[=] _] | (_ & callback & w1 & [= <-] & _ & Happly & _ & Hm & Hi)]].
  split_and!; [by rewrite Hrun | exact Hi |].
  rewrite Hm. vm_compute in Happly. by injection Happly as <-.
Defined.

(** ** The instance over its lifetime *)

Lemma onMutations_run records this w :
  ∃ w', (onMutations records this w = (w', Returned this) ∨
         onMutations records this w
         = (w', Returned (setRegistries (_createSlotElMap (dom w') (_rootEl this))
                                        (_createItemElMap (dom w') (_rootEl this)) this))).
Proof.
  unfold onMutations. destruct (existsb isChildList records); [| exists w; by left].
  destruct (resyncItems_run (_rootEl this) w) as (w' & Hrun & _).
  exists w'. unfold bind. rewrite Hrun.
  destruct (bool_decide _); [by right | by left].
Qed.

(** What the handlers keep.  The registries an instance starts with give no
    element two ids, and every handler keeps them so; a swap event leaves
    root, registries and callback alone, a mutation batch never throws and
    leaves root, callback and snapshot alone, and registering a callback
    changes nothing else. *)
Theorem instance_invariants this w :
  (∀ root userConfig pluginKey w' swapy,
     createSwapy root userConfig pluginKey w = (w', Returned swapy) →
     registriesInjective swapy ∧ _swapCallback swapy = None ∧ _previousMap swapy = None) ∧
  (∀ event w' this', onSwapEvent event this w = (w', Returned this') →
     _rootEl this' = _rootEl this ∧ _slotElMap this' = _slotElMap this ∧
     _itemElMap this' = _itemElMap this ∧ _swapCallback this' = _swapCallback this) ∧
  (∀ records, ∃ w' this', onMutations records this w = (w', Returned this') ∧
     _rootEl this' = _rootEl this ∧ _swapCallback this' = _swapCallback this ∧
     _previousMap this' = _previousMap this ∧
     (registriesInjective this → registriesInjective this')) ∧
  (∀ callback, _rootEl (onSwap callback this) = _rootEl this ∧
     _slotElMap (onSwap callback this) = _slotElMap this ∧
     _itemElMap (onSwap callback this) = _itemElMap this ∧
     _previousMap (onSwap callback this) = _previousMap this).
Proof.
  split_and!.
  - intros [rootEl|] userConfig pluginKey w' swapy; simpl; [| done].
    unfold bind at 1. destruct (validate rootEl w) as [w1 [[]|e]]; simpl; [| done | done].
    unfold bind at 1.
    destruct (addVeloxiDataAttributes_returns rootEl (mergeConfig userConfig) pluginKey w1)
      as (w2 & key & ->).
    unfold newSwapy, bind, getDom, ret. intros [= <- <-]. simpl.
    split_and!; [| done | done]. split; apply createElMap_injective.
  - intros event w' this' Hrun. unfold onSwapEvent in Hrun.
    destruct (suppressed this event) eqn:Hs; [by injection Hrun as <- <- |].
    fold (onSwapEvent event this) in Hrun.
    assert (onSwapEvent event this w = (w', Returned this')) as Hrun'
      by (unfold onSwapEvent; by rewrite Hs).
    by destruct (onSwapEvent_returned _ _ _ _ _ Hs Hrun') as (_ & -> & _).
  - intros records. destruct (onMutations_run records this w) as (w' & [->| ->]).
    + by exists w', this.
    + eexists _, _. split; [done |]. split_and!; [done | done | done |].
      intros _. split; apply createElMap_injective.
  - done.
Qed.

Lemma valueSetEqual_trans m1 m2 m3 :
  valueSetEqual m1 m2 → valueSetEqual m2 m3 → valueSetEqual m1 m3.
Proof. intros H12 H23 k. by rewrite H12. Qed.

(** Idempotence.  Once the handler has completed for a swap event, the same
    map delivered again, in whatever key order, changes nothing: no write,
    no callback, the same snapshot. *)
Theorem redelivered_swap_is_noop event again this w w' this' :
  onSwapEvent event this w = (w', Returned this') →
  valueSetEqual (data_map event) (data_map again) →
  onSwapEvent again this' w' = (w', Returned this').
Proof.
  intros Hrun Heq.
  assert (suppressed this' again = true) as Hs; [| unfold onSwapEvent; by rewrite Hs].
  apply suppressed_spec.
  destruct (suppressed this event) eqn:Hfirst.
  - unfold onSwapEvent in Hrun. rewrite Hfirst in Hrun. injection Hrun as <- <-.
    apply suppressed_spec in Hfirst as (pm & Hpm & Hpm').
    exists pm. split; [done | by eapply valueSetEqual_trans].
  - destruct (onSwapEvent_returned _ _ _ _ _ Hfirst Hrun) as (_ & -> & _).
    by eexists.
Qed.

Lemma redelivered_swap_is_noop_witness :
  let again := mkSwapEvent [("right", Some "x"); ("left", Some "y")] "again" in
  let first := onSwapEvent demoSwap (demoSwapy (Some demoBaseline)) demoWorld in
  onSwapEvent again (outcomeValue (demoSwapy None) first.2) first.1
  = (first.1, Returned (outcomeValue (demoSwapy None) first.2)).
Proof.
  intros again first.
  apply (redelivered_swap_is_noop demoSwap again (demoSwapy (Some demoBaseline)) demoWorld).
  - vm_compute. reflexivity.
  - apply mapsAreEqual_spec. vm_compute. reflexivity.
Defined.

(** The callback is single: of two callbacks registered one after the
    other, an effective swap event calls the second, once, and not the
    first. *)
Theorem last_registered_callback_is_called first second event this w w' this' :
  suppressed this event = false →
  onSwapEvent event (onSwap second (onSwap first this)) w = (w', Returned this') →
  invoked w' = invoked w ++ [(second, event)] ∧
  _swapCallback this' = Some second.
Proof.
  intros Hs Hrun.
  assert (suppressed (onSwap second (onSwap first this)) event = false) as Hs' by done.
  destruct (onSwapEvent_returned _ _ _ _ _ Hs' Hrun)
    as (_ & -> & w1 & Happly & _ & _ & _ & Hinv).
  apply applyOrderIn_returned in Happly as (_ & _ & _ & Hinv1).
  split; [| done]. by rewrite Hinv, Hinv1.
Qed.

Lemma last_registered_callback_is_called_witness :
  let run := onSwapEvent demoSwap
                 (onSwap (quietCallback 9)
                    (onSwap (throwingCallback 8) (demoSwapy (Some demoBaseline))))
                 demoWorld in
  invoked run.1 = [(quietCallback 9, demoSwap)].
Proof.
  intros run.
  destruct (last_registered_callback_is_called (throwingCallback 8) (quietCallback 9)
              demoSwap (demoSwapy (Some demoBaseline))
              demoWorld run.1 (outcomeValue (demoSwapy None) run.2)) as [H _].
  - reflexivity.
  - vm_compute. reflexivity.
  - exact H.
Defined.

(** ** The attribute tagger *)

Lemma tags_then_ret {A} h0 (m : M unit) ws (a : A) :
  tags h0 m ws tt → tags h0 (m ;;; ret a) ws a.
Proof.
  intros Hm. rewrite <-(app_nil_r ws).
  apply (tags_bind _ _ _ _ _ tt); [done | apply tags_ret].
Qed.

Lemma Forall_taggerWrite_flags (key : string) (els : list nat) :
  key ∉ markupKeys → Forall taggerWrite (flat_map (λ el, [(el, key, "")]) els).
Proof. intros Hkey. induction els; simpl; [done |]. by apply Forall_cons. Qed.

Lemma subtreeWrites_tags h0 root (pluginKey : string) :
  tags h0 (h ←← getDom;
           forEach (λ slot, setData slot "velView" "slot")
                   (querySelectorAll h root "swapySlot") ;;;
           h ←← getDom;
           forEach tagItemView (querySelectorAll h root "swapyItem") ;;;
           h ←← getDom;
           forEach (λ el, setData el "velLayoutPosition" "")
                   (querySelectorAll h root "swapyText") ;;;
           h ←← getDom;
           forEach (λ el, setData el "velIgnore" "")
                   (querySelectorAll h root "swapyExclude") ;;;
           ret pluginKey)
       (subtreeWrites h0 root) pluginKey.
Proof.
  unfold subtreeWrites.
  set (slots := flat_map (λ slot, [(slot, "velView", "slot")])
                         (querySelectorAll h0 root "swapySlot")).
  set (items := flat_map (viewWrites h0) (querySelectorAll h0 root "swapyItem")).
  set (texts := flat_map (λ el, [(el, "velLayoutPosition", "")])
                         (querySelectorAll h0 root "swapyText")).
  set (excludes := flat_map (λ el, [(el, "velIgnore", "")])
                            (querySelectorAll h0 root "swapyExclude")).
  assert (tags h0 (h ←← getDom;
                   forEach (λ el, setData el "velIgnore" "")
                           (querySelectorAll h root "swapyExclude") ;;;
                   ret pluginKey) excludes pluginKey) as Hexcludes.
  { apply tags_getDom; [apply Forall_taggerWrite_flags; not_markup |].
    intros h Hh. rewrite <-(sameMarkup_querySelectorAll h0 h) by (done || is_markup).
    apply tags_then_ret, tags_forEach. intros el. apply tags_setData. not_markup. }
  assert (tags h0 (h ←← getDom;
                   forEach (λ el, setData el "velLayoutPosition" "")
                           (querySelectorAll h root "swapyText") ;;;
                   h ←← getDom;
                   forEach (λ el, setData el "velIgnore" "")
                           (querySelectorAll h root "swapyExclude") ;;;
                   ret pluginKey) (texts ++ excludes) pluginKey) as Htexts.
  { apply tags_getDom.
    { apply Forall_app. split; [apply Forall_taggerWrite_flags; not_markup | apply Hexcludes]. }
    intros h Hh. rewrite <-(sameMarkup_querySelectorAll h0 h) by (done || is_markup).
    apply (tags_bind _ _ _ _ _ tt); [| done].
    apply tags_forEach. intros el. apply tags_setData. not_markup. }
  assert (tags h0 (forEach tagItemView (querySelectorAll h0 root "swapyItem")) items tt)
    as Hitems by (apply tags_forEach; intros item; apply tagItemView_tags).
  assert (tags h0 (forEach (λ slot, setData slot "velView" "slot")
                           (querySelectorAll h0 root "swapySlot")) slots tt) as Hslots.
  { apply tags_forEach. intros el. apply tags_setData. not_markup. }
  apply tags_getDom.
  { apply Forall_app; split; [apply Hslots |].
    apply Forall_app; split; [apply Hitems | apply Htexts]. }
  intros h Hh. rewrite <-(sameMarkup_querySelectorAll h0 h) by (done || is_markup).
  apply (tags_bind _ _ _ _ _ tt); [done |].
  apply tags_getDom.
  { apply Forall_app; split; [apply Hitems | apply Htexts]. }
  intros h' Hh'. rewrite <-(sameMarkup_querySelectorAll h0 h') by (done || is_markup).
  apply (tags_bind _ _ _ _ _ tt); [done | done].
Qed.

Lemma addVeloxiDataAttributes_tags h0 root config pluginKey :
  tags h0 (addVeloxiDataAttributes root config pluginKey)
       (taggerWrites h0 root config pluginKey) pluginKey.
Proof.
  unfold addVeloxiDataAttributes, taggerWrites, rootWrites.
  change [(root, "velPluginKey", pluginKey); (root, "velPlugin", "Swapy");
          (root, "velView", "root");
          (root, "velDataConfigAnimation", toDataString (animationName <$> animation config))]
    with ([(root, "velPluginKey", pluginKey)] ++ [(root, "velPlugin", "Swapy")] ++
          [(root, "velView", "root")] ++
          [(root, "velDataConfigAnimation", toDataString (animationName <$> animation config))]).
  rewrite <-!(assoc_L (++)).
  do 4 (apply (tags_bind _ _ _ _ _ tt); [apply tags_setData; not_markup |]).
  apply (tags_bind _ _ _ _ _ tt); [| apply subtreeWrites_tags].
  destruct (default false (continuousMode config)); [apply tags_setData; not_markup | apply tags_ret].
Qed.

(** What [addVeloxiDataAttributes] does: its writes, in order. *)
Lemma addVeloxiDataAttributes_run root config pluginKey w :
  ∃ w', addVeloxiDataAttributes root config pluginKey w = (w', Returned pluginKey) ∧
    dom w' = foldl applyWrite (dom w) (taggerWrites (dom w) root config pluginKey) ∧
    mutations w' = mutations w ++ writeTrace (taggerWrites (dom w) root config pluginKey) ∧
    console w' = console w ∧ invoked w' = invoked w.
Proof.
  destruct (addVeloxiDataAttributes_tags (dom w) root config pluginKey) as [_ Hrun].
  apply Hrun, sameMarkup_refl.
Qed.

(** The tagger only stamps.  [addVeloxiDataAttributes] never throws and
    returns the instance key it was given; it leaves the tree and every
    authored attribute as they are, writes nothing but [data-vel-*]
    attributes, and touches neither the console nor the host. *)
Theorem tagger_only_stamps root config pluginKey w :
  ∃ w' ms, addVeloxiDataAttributes root config pluginKey w = (w', Returned pluginKey) ∧
    sameMarkup (dom w) (dom w') ∧
    console w' = console w ∧ invoked w' = invoked w ∧
    mutations w' = mutations w ++ ms ∧
    ∀ m, m ∈ ms → ∃ el key value, m = SetData el key value ∧ key ∉ markupKeys.
Proof.
  destruct (addVeloxiDataAttributes_run root config pluginKey w)
    as (w' & Hrun & Hd & Hm & Hc & Hi).
  destruct (addVeloxiDataAttributes_tags (dom w) root config pluginKey) as [Hws _].
  exists w', (writeTrace (taggerWrites (dom w) root config pluginKey)).
  split_and!; [done | | done | done | done |].
  - rewrite Hd. by apply applyWrites_sameMarkup.
  - intros m (wr & -> & Hwr)%list_elem_of_fmap.
    rewrite Forall_forall in Hws. exists wr.1.1, wr.1.2, wr.2. split; [done |].
    by apply Hws.
Qed.

Lemma applyWrites_getData_untouched h ws el key :
  (∀ wr, wr ∈ ws → ¬ (wr.1.1 = el ∧ wr.1.2 = key)) →
  getData (foldl applyWrite h ws) el key = getData h el key.
Proof.
  revert h. induction ws as [|wr ws IH]; intros h Hws; simpl; [done |].
  rewrite IH by (intros ? ?; apply Hws; by right).
  rewrite getData_applyWrite. rewrite decide_False; [done |]. apply Hws. left.
Qed.

Lemma applyWrites_getData_is_Some h ws el key :
  is_Some (getData h el key) → is_Some (getData (foldl applyWrite h ws) el key).
Proof.
  revert h. induction ws as [|wr ws IH]; intros h Hget; simpl; [done |].
  apply IH. rewrite getData_applyWrite. case_decide; [| done].
  unfold getData in Hget. destruct (h !! el); [by eexists | by destruct Hget].
Qed.

(** An attribute that is written is there afterwards. *)
Lemma applyWrites_written h ws el key value :
  (el, key, value) ∈ ws → is_Some (h !! el) →
  is_Some (getData (foldl applyWrite h ws) el key).
Proof.
  intros (ws1 & ws2 & ->)%list_elem_of_split Hel.
  rewrite foldl_app. simpl. apply applyWrites_getData_is_Some.
  rewrite getData_applyWrite. simpl. rewrite decide_True by done.
  destruct (applyWrites_is_Some h ws1 el Hel) as [nd ->]. by eexists.
Qed.

Lemma elem_of_viewWrites h item wr :
  wr ∈ viewWrites h item ↔
  wr = (item, "velView", "item") ∨
  wr = (item, "velLayoutId", toDataString (getData h item "swapyItem")) ∨
  (∃ handle, querySelector h item "swapyHandle" = Some handle ∧
             wr = (handle, "velView", "handle")).
Proof.
  unfold viewWrites, handleWrites. rewrite !elem_of_app, !list_elem_of_singleton.
  destruct (querySelector h item "swapyHandle") as [handle|].
  - rewrite list_elem_of_singleton. split.
    + intros [? | [? | ->]]; eauto.
    + intros [? | [? | (hd & [= <-] & ->)]]; eauto.
  - split.
    + intros [? | [? | []%elem_of_nil]]; eauto.
    + intros [? | [? | (hd & [=] & _)]]; eauto.
Qed.

Lemma elem_of_flags (key value : string) (els : list nat) wr :
  wr ∈ flat_map (λ el, [(el, key, value)]) els ↔ ∃ el, el ∈ els ∧ wr = (el, key, value).
Proof.
  rewrite list_elem_of_In, in_flat_map. split.
  - intros (el & Hel & [<-|[]]). exists el. by rewrite list_elem_of_In.
  - intros (el & Hel & ->). exists el. rewrite <-list_elem_of_In. split; [done | by left].
Qed.

(** The kinds of write of [addVeloxiDataAttributes]. *)
Lemma elem_of_taggerWrites h root config pluginKey wr :
  wr ∈ taggerWrites h root config pluginKey ↔
  wr ∈ rootWrites root config pluginKey ∨
  (∃ slot, slot ∈ querySelectorAll h root "swapySlot" ∧ wr = (slot, "velView", "slot")) ∨
  (∃ item, item ∈ querySelectorAll h root "swapyItem" ∧ wr ∈ viewWrites h item) ∨
  (∃ el, el ∈ querySelectorAll h root "swapyText" ∧ wr = (el, "velLayoutPosition", "")) ∨
  (∃ el, el ∈ querySelectorAll h root "swapyExclude" ∧ wr = (el, "velIgnore", "")).
Proof.
  unfold taggerWrites, subtreeWrites. rewrite !elem_of_app, !elem_of_flags.
  assert (wr ∈ flat_map (viewWrites h) (querySelectorAll h root "swapyItem") ↔
          ∃ item, item ∈ querySelectorAll h root "swapyItem" ∧ wr ∈ viewWrites h item) as ->.
  { rewrite list_elem_of_In, in_flat_map.
    split; intros (item & ? & ?); exists item; by rewrite ?list_elem_of_In in *. }
  done.
Qed.

Lemma rootWrites_target root config pluginKey wr :
  wr ∈ rootWrites root config pluginKey → wr.1.1 = root.
Proof.
  unfold rootWrites. intros [Hin|Hin]%elem_of_app.
  - repeat (apply elem_of_cons in Hin as [->|Hin]; [done |]). by apply elem_of_nil in Hin.
  - destruct (default false (continuousMode config)); [| by apply elem_of_nil in Hin].
    by apply list_elem_of_singleton in Hin as ->.
Qed.

(** A write of the tagger goes to the root or to a node below it. *)
Lemma taggerWrites_target rank h root config pluginKey wr :
  ranked rank h → wr ∈ taggerWrites h root config pluginKey →
  wr.1.1 = root ∨ rank wr.1.1 < rank root.
Proof.
  intros Hr. rewrite elem_of_taggerWrites.
  assert (∀ el key, el ∈ querySelectorAll h root key → rank el < rank root) as Hbelow.
  { intros el key [_ Hin]%querySelectorAll_elem_of. by eapply descendants_rank. }
  intros [Hroot | [(slot & Hs & ->) | [(item & Hi & Hwr) | [(el & He & ->) | (el & He & ->)]]]];
    simpl; eauto using rootWrites_target.
  right. apply Hbelow in Hi.
  apply elem_of_viewWrites in Hwr as [-> | [-> | (hd & Hhd & ->)]]; simpl; try done.
  apply handle_below, (descendants_rank rank) in Hhd; [lia | done].
Qed.

(** In document order a match of a selector comes before the matches below
    it. *)
Lemma querySelectorAll_below_after rank h root key before item after el :
  ranked rank h →
  querySelectorAll h root key = before ++ item :: after →
  el ∈ descendants h item → el ∈ querySelectorAll h root key → el ∈ after.
Proof.
  intros Hr Hsplit Hbelow Hel. unfold querySelectorAll in *.
  apply filter_split in Hsplit as (Da & Db & Hsplit & _ & <-).
  apply list_elem_of_filter in Hel as [Hkey _].
  assert (∃ rest, Db = descendants h item ++ rest) as [rest ->].
  { unfold descendants in Hsplit. eapply (subtree_split rank); [done | | done].
    destruct (h !! root) as [nd|] eqn:Hroot; [by destruct (Hr root nd Hroot) |].
    destruct (size h); simpl in Hsplit; rewrite ?Hroot in Hsplit;
      by apply app_cons_not_nil in Hsplit. }
  apply list_elem_of_filter. split; [done |]. apply elem_of_app. by left.
Qed.

Lemma viewWrites_velView h item wr :
  wr ∈ viewWrites h item → wr.1.2 = "velView" →
  wr = (item, "velView", "item") ∨
  (querySelector h item "swapyHandle" = Some wr.1.1 ∧ wr.2 = "handle").
Proof.
  rewrite elem_of_viewWrites.
  intros [-> | [-> | (hd & Hhd & ->)]]; simpl; try discriminate; auto.
Qed.

(** Every item ends as an item view, also one that is the handle of an
    item above it. *)
Lemma tagger_item_view rank h root config pluginKey item :
  ranked rank h → item ∈ querySelectorAll h root "swapyItem" →
  getData (foldl applyWrite h (taggerWrites h root config pluginKey)) item "velView"
  = Some "item".
Proof.
  intros Hr Hitem.
  destruct (list_elem_of_split_r _ _ Hitem) as (L1 & L2 & Hsplit & Hlast).
  assert (∃ rest, viewWrites h item = (item, "velView", "item") :: rest ∧
                  ∀ wr, wr ∈ rest → wr ∈ viewWrites h item) as (rest & Heq & Hrest).
  { eexists. split; [reflexivity |]. intros wr Hwr. by right. }
  unfold taggerWrites, subtreeWrites. rewrite Hsplit, flat_map_app. cbn [flat_map].
  rewrite Heq.
  set (pre := rootWrites root config pluginKey).
  set (slots := flat_map _ (querySelectorAll h root "swapySlot")).
  set (texts := flat_map _ (querySelectorAll h root "swapyText")).
  set (excludes := flat_map _ (querySelectorAll h root "swapyExclude")).
  assert (pre ++ slots
            ++ (flat_map (viewWrites h) L1
                  ++ ((item, "velView", "item") :: rest) ++ flat_map (viewWrites h) L2)
            ++ texts ++ excludes
          = (pre ++ slots ++ flat_map (viewWrites h) L1)
              ++ (item, "velView", "item")
              :: (rest ++ flat_map (viewWrites h) L2 ++ texts ++ excludes)) as ->
    by (by rewrite <-!(assoc_L (++))).
  apply applyWrites_last.
  { apply querySelectorAll_elem_of in Hitem as [Hd _]. by eapply hasData_is_Some. }
  intros wr Hwr Htarget Hkey. subst texts excludes.
  rewrite !elem_of_app, !elem_of_flags in Hwr.
  destruct Hwr as [Hwr | [Hwr | [(el & _ & ->) | (el & _ & ->)]]]; try discriminate.
  - apply Hrest in Hwr.
    destruct (viewWrites_velView _ _ _ Hwr Hkey) as [-> | [Hhandle _]]; [done |].
    apply handle_below, (descendants_rank rank) in Hhandle; [| done].
    rewrite Htarget in Hhandle. lia.
  - apply list_elem_of_In, in_flat_map in Hwr as (other & Hother & Hwr).
    apply list_elem_of_In in Hother, Hwr.
    destruct (viewWrites_velView _ _ _ Hwr Hkey) as [-> | [Hhandle _]]; [done |].
    destruct Hlast.
    apply list_elem_of_split in Hother as (L2a & L2b & ->).
    assert (item ∈ L2b) as Hin; [| apply elem_of_app; right; by right].
    apply (querySelectorAll_below_after rank h root "swapyItem" (L1 ++ item :: L2a) other L2b);
      [done | by rewrite Hsplit, <-(assoc_L (++)) | | done].
    rewrite <-Htarget. by apply handle_below.
Qed.

Lemma applyWrites_last_in h pre seg post el key value :
  is_Some (h !! el) → (el, key, value) ∈ seg →
  (∀ wr, wr ∈ seg ++ post → wr.1.1 = el → wr.1.2 = key → wr.2 = value) →
  getData (foldl applyWrite h (pre ++ seg ++ post)) el key = Some value.
Proof.
  intros Hel (s1 & s2 & ->)%list_elem_of_split Hlater.
  assert (pre ++ (s1 ++ (el, key, value) :: s2) ++ post
          = (pre ++ s1) ++ (el, key, value) :: (s2 ++ post)) as ->
    by (by rewrite <-!(assoc_L (++))).
  apply applyWrites_last; [done |]. intros wr Hwr. apply Hlater.
  rewrite <-(assoc_L (++)). apply elem_of_app. right. by right.
Qed.

(** What the tagger leaves on a tree.  The root carries the instance key,
    the plugin name, the root view, the animation mode and, when continuous
    mode is on, its marker (when it is off the marker is not written: one
    that is there stays); every item is an item view with its item id as
    layout id, every slot that is neither item- nor handle-marked a slot
    view, the handle of an item a handle view unless it is an item itself,
    and the text and exclude marks are set. *)
Theorem tagger_marks rank root config pluginKey w :
  ranked rank (dom w) → is_Some (dom w !! root) →
  ∃ w', addVeloxiDataAttributes root config pluginKey w = (w', Returned pluginKey) ∧
    getData (dom w') root "velPluginKey" = Some pluginKey ∧
    getData (dom w') root "velPlugin" = Some "Swapy" ∧
    getData (dom w') root "velView" = Some "root" ∧
    getData (dom w') root "velDataConfigAnimation"
      = Some (toDataString (animationName <$> animation config)) ∧
    getData (dom w') root "velDataConfigContinuousMode"
      = (if default false (continuousMode config) then Some "true"
         else getData (dom w) root "velDataConfigContinuousMode") ∧
    (∀ item, item ∈ querySelectorAll (dom w) root "swapyItem" →
       getData (dom w') item "velView" = Some "item" ∧
       getData (dom w') item "velLayoutId" = getData (dom w) item "swapyItem" ∧
       ∀ handle, querySelector (dom w) item "swapyHandle" = Some handle →
         handle ∉ querySelectorAll (dom w) root "swapyItem" →
         getData (dom w') handle "velView" = Some "handle") ∧
    (∀ slot, slot ∈ querySelectorAll (dom w) root "swapySlot" →
       hasData (dom w) "swapyItem" slot = false →
       hasData (dom w) "swapyHandle" slot = false →
       getData (dom w') slot "velView" = Some "slot") ∧
    (∀ el, el ∈ querySelectorAll (dom w) root "swapyText" →
       getData (dom w') el "velLayoutPosition" = Some "") ∧
    (∀ el, el ∈ querySelectorAll (dom w) root "swapyExclude" →
       getData (dom w') el "velIgnore" = Some "").
Proof.
  intros Hr Hroot.
  destruct (addVeloxiDataAttributes_run root config pluginKey w) as (w' & Hrun & Hdom & _).
  exists w'. split; [done |]. rewrite Hdom. clear Hrun Hdom.
  set (h := dom w) in *. set (ws := taggerWrites h root config pluginKey).
  assert (∀ wr, wr ∈ ws → wr.1.1 = root → wr ∈ rootWrites root config pluginKey) as Honly.
  { intros wr Hwr Htarget.
    assert (∀ el key, el ∈ querySelectorAll h root key → rank el < rank root) as Hbelow.
    { intros el key [_ Hin]%querySelectorAll_elem_of. by eapply descendants_rank. }
    apply elem_of_taggerWrites in Hwr
      as [? | [(slot & Hs & ->) | [(item & Hi & Hv) | [(el & He & ->) | (el & He & ->)]]]];
      [done | apply Hbelow in Hs | | apply Hbelow in He | apply Hbelow in He];
      simpl in Htarget; try (subst; lia).
    apply Hbelow in Hi.
    apply elem_of_viewWrites in Hv as [-> | [-> | (hd & Hhd & ->)]];
      simpl in Htarget; try (subst; lia).
    apply handle_below, (descendants_rank rank) in Hhd; [| done]. subst. lia. }
  assert (∀ key value, (root, key, value) ∈ rootWrites root config pluginKey →
            (∀ wr, wr ∈ rootWrites root config pluginKey → wr.1.2 = key → wr.2 = value) →
            getData (foldl applyWrite h ws) root key = Some value) as Hmark.
  { intros key value Hin Hsame. apply applyWrites_agreed; [done | |].
    - apply elem_of_taggerWrites. by left.
    - intros wr Hwr Htarget. by apply Hsame, Honly. }
  assert (∀ wr, wr ∈ rootWrites root config pluginKey →
            wr = (root, "velPluginKey", pluginKey) ∨ wr = (root, "velPlugin", "Swapy") ∨
            wr = (root, "velView", "root") ∨
            wr = (root, "velDataConfigAnimation", toDataString (animationName <$> animation config)) ∨
            (default false (continuousMode config) = true ∧
             wr = (root, "velDataConfigContinuousMode", "true"))) as Hkinds.
  { intros wr. unfold rootWrites. intros [Hin|Hin]%elem_of_app.
    - repeat (apply elem_of_cons in Hin as [->|Hin]; [by eauto 10 |]).
      by apply elem_of_nil in Hin.
    - destruct (default false (continuousMode config)); [| by apply elem_of_nil in Hin].
      apply list_elem_of_singleton in Hin as ->. eauto 10. }
  assert (∀ wr, wr ∈ [(root, "velPluginKey", pluginKey); (root, "velPlugin", "Swapy");
            (root, "velView", "root");
            (root, "velDataConfigAnimation", toDataString (animationName <$> animation config))] →
          wr ∈ rootWrites root config pluginKey) as Hfour.
  { intros wr Hin. unfold rootWrites. apply elem_of_app. by left. }
  split_and!.
  - apply Hmark; [apply Hfour; left |].
    intros wr [-> | [-> | [-> | [-> | [_ ->]]]]]%Hkinds; simpl; done.
  - apply Hmark; [apply Hfour; right; left |].
    intros wr [-> | [-> | [-> | [-> | [_ ->]]]]]%Hkinds; simpl; done.
  - apply Hmark; [apply Hfour; right; right; left |].
    intros wr [-> | [-> | [-> | [-> | [_ ->]]]]]%Hkinds; simpl; done.
  - apply Hmark; [apply Hfour; right; right; right; left |].
    intros wr [-> | [-> | [-> | [-> | [_ ->]]]]]%Hkinds; simpl; done.
  - destruct (default false (continuousMode config)) eqn:Hcont.
    + apply Hmark.
      * unfold rootWrites. rewrite Hcont. apply elem_of_app. right. left.
      * intros wr [-> | [-> | [-> | [-> | [_ ->]]]]]%Hkinds; simpl; done.
    + apply applyWrites_getData_untouched. intros wr Hwr [Htarget Hkey].
      apply Honly in Hwr; [| done].
      apply Hkinds in Hwr as [-> | [-> | [-> | [-> | [? _]]]]]; simpl in *; done.
  - intros item Hitem. split_and!.
    + by eapply tagger_item_view.
    + assert (is_Some (h !! item) ∧ is_Some (getData h item "swapyItem")) as [Hlive [id Hid]].
      { apply querySelectorAll_elem_of in Hitem as [Hd _]. split; [by eapply hasData_is_Some |].
        unfold hasData in Hd. apply andb_true_iff in Hd as [_ Hd].
        by apply bool_decide_eq_true in Hd. }
      rewrite Hid. apply applyWrites_agreed; [done | |].
      * apply elem_of_taggerWrites. right; right; left. exists item. split; [done |].
        apply elem_of_viewWrites. right; left. by rewrite Hid.
      * intros wr Hwr Htarget Hkey.
        apply elem_of_taggerWrites in Hwr
          as [Hwr | [(slot & _ & ->) | [(other & _ & Hv) | [(el & _ & ->) | (el & _ & ->)]]]];
          try discriminate.
        -- apply Hkinds in Hwr as [-> | [-> | [-> | [-> | [_ ->]]]]]; discriminate.
        -- apply elem_of_viewWrites in Hv as [-> | [-> | (hd & _ & ->)]]; try discriminate.
           simpl in Htarget. subst. simpl. by rewrite Hid.
    + intros handle Hhandle Hnot. unfold ws, taggerWrites, subtreeWrites.
      rewrite (assoc_L (++) (rootWrites _ _ _)).
      apply applyWrites_last_in.
      * apply querySelector_elem_of, querySelectorAll_elem_of in Hhandle as [Hd _].
        by eapply hasData_is_Some.
      * apply list_elem_of_In, in_flat_map. exists item. rewrite <-!list_elem_of_In.
        split; [done |]. apply elem_of_viewWrites. eauto.
      * intros wr Hwr Htarget Hkey.
        rewrite !elem_of_app, !elem_of_flags in Hwr.
        destruct Hwr as [Hwr | [(el & _ & ->) | (el & _ & ->)]]; try discriminate.
        apply list_elem_of_In, in_flat_map in Hwr as (other & Hother & Hwr).
        apply list_elem_of_In in Hother, Hwr.
        destruct (viewWrites_velView _ _ _ Hwr Hkey) as [-> | [_ ?]]; [| done].
        simpl in Htarget. by subst.
  - intros slot Hslot Hnoitem Hnohandle. apply applyWrites_agreed.
    + apply querySelectorAll_elem_of in Hslot as [Hd _]. by eapply hasData_is_Some.
    + apply elem_of_taggerWrites. right; left. by exists slot.
    + intros wr Hwr Htarget Hkey.
      apply elem_of_taggerWrites in Hwr
        as [Hwr | [(s & _ & ->) | [(other & Hother & Hv) | [(el & _ & ->) | (el & _ & ->)]]]];
        try discriminate; [| done |].
      * apply rootWrites_target in Hwr as Heq. rewrite Htarget in Heq. subst.
        apply querySelectorAll_elem_of in Hslot as [_ Hin%(descendants_rank rank)];
          [lia | done].
      * destruct (viewWrites_velView _ _ _ Hv Hkey) as [-> | [Hq _]].
        -- simpl in Htarget. subst.
           apply querySelectorAll_elem_of in Hother as [Hd _]. congruence.
        -- rewrite Htarget in Hq.
           apply querySelector_elem_of, querySelectorAll_elem_of in Hq as [Hd _]. congruence.
  - intros el Hel. apply applyWrites_agreed.
    + apply querySelectorAll_elem_of in Hel as [Hd _]. by eapply hasData_is_Some.
    + apply elem_of_taggerWrites. right; right; right; left. by exists el.
    + intros wr Hwr _ Hkey.
      apply elem_of_taggerWrites in Hwr
        as [Hwr | [(s & _ & ->) | [(other & _ & Hv) | [(x & _ & ->) | (x & _ & ->)]]]];
        try discriminate; [| | done].
      * apply Hkinds in Hwr as [-> | [-> | [-> | [-> | [_ ->]]]]]; discriminate.
      * apply elem_of_viewWrites in Hv as [-> | [-> | (hd & _ & ->)]]; discriminate.
  - intros el Hel. apply applyWrites_agreed.
    + apply querySelectorAll_elem_of in Hel as [Hd _]. by eapply hasData_is_Some.
    + apply elem_of_taggerWrites. right; right; right; right. by exists el.
    + intros wr Hwr _ Hkey.
      apply elem_of_taggerWrites in Hwr
        as [Hwr | [(s & _ & ->) | [(other & _ & Hv) | [(x & _ & ->) | (x & _ & ->)]]]];
        try discriminate; [| | done].
      * apply Hkinds in Hwr as [-> | [-> | [-> | [-> | [_ ->]]]]]; discriminate.
      * apply elem_of_viewWrites in Hv as [-> | [-> | (hd & _ & ->)]]; discriminate.
Qed.

Lemma tagger_marks_witness :
  ranked lateRank demoDom ∧
  ∃ w', addVeloxiDataAttributes 0 DEFAULT_CONFIG "k" demoWorld = (w', Returned "k") ∧
    getData (dom w') 0 "velDataConfigContinuousMode" = Some "true" ∧
    getData (dom w') 3 "velLayoutId" = Some "x" ∧
    getData (dom w') 2 "velView" = Some "slot".
Proof.
  assert (ranked lateRank demoDom) as Hr
    by (unfold ranked; apply (bool_decide_unpack _); vm_compute; exact I).
  split; [done |].
  destruct (tagger_marks lateRank 0 DEFAULT_CONFIG "k" demoWorld Hr)
    as (w' & Hrun & _ & _ & _ & _ & Hcont & Hitems & Hslots & _);
    [apply (bool_decide_unpack _); vm_compute; exact I |].
  exists w'. split_and!; [done | done | |].
  - destruct (Hitems 3) as (_ & -> & _); [| done].
    apply (bool_decide_unpack _). vm_compute. exact I.
  - apply Hslots; [| done | done].
    apply (bool_decide_unpack _). vm_compute. exact I.
Defined.

(** ** After tagging *)

Lemma untaggedItems_after_writes h ws root :
  Forall taggerWrite ws →
  (∀ item, item ∈ untaggedItems h root → ∃ value, (item, "velView", value) ∈ ws) →
  untaggedItems (foldl applyWrite h ws) root = [].
Proof.
  intros Hws Hall. apply elem_of_nil_inv. intros el.
  pose proof (applyWrites_sameMarkup h ws Hws) as Hsame.
  rewrite untaggedItems_elem_of. intros (Hview & Hitem & Hbelow).
  rewrite <-(sameMarkup_hasData h _ "swapyItem") in Hitem by (done || is_markup).
  rewrite <-(sameMarkup_descendants h) in Hbelow by done.
  assert (is_Some (getData (foldl applyWrite h ws) el "velView")) as Hset.
  { destruct (hasData h "velView" el) eqn:Hbefore.
    - apply applyWrites_getData_is_Some.
      unfold hasData in Hbefore. apply andb_true_iff in Hbefore as [_ Hd].
      by apply bool_decide_eq_true in Hd.
    - destruct (Hall el) as [value Hwr]; [by apply untaggedItems_elem_of |].
      eapply applyWrites_written; [done | by eapply hasData_is_Some]. }
  unfold hasData in Hview, Hitem.
  rewrite <-(sameMarkup_isElement h) in Hview by done.
  apply andb_true_iff in Hitem as [Hel _]. rewrite Hel in Hview. simpl in Hview.
  by apply bool_decide_eq_false in Hview.
Qed.

(** With no untagged item under the root a mutation batch does nothing. *)
Lemma onMutations_settled records this w :
  untaggedItems (dom w) (_rootEl this) = [] →
  onMutations records this w = (w, Returned this).
Proof.
  intros Hnone. unfold onMutations. destruct (existsb isChildList records); [| done].
  destruct (resyncItems_run (_rootEl this) w) as (w' & Hrun & Hd & Hm & Hc & Hi).
  unfold resyncWrites in Hd, Hm. rewrite Hnone in Hrun, Hd, Hm. simpl in Hrun, Hd, Hm.
  rewrite app_nil_r in Hm. apply World_eq in Hd as ->; [| done..].
  unfold bind. by rewrite Hrun.
Qed.

Lemma foldl_registerEl_sameMarkup h h' key els acc :
  sameMarkup h h' → key ∈ markupKeys →
  foldl (registerEl h key) acc els = foldl (registerEl h' key) acc els.
Proof.
  intros Hs Hkey. revert acc. induction els as [|el els IH]; intros acc; simpl; [done |].
  rewrite IH. f_equal. unfold registerEl. destruct (Hs el) as (_ & _ & Hd).
  by rewrite Hd.
Qed.

(** The registries read authored attributes only. *)
Lemma createElMap_sameMarkup h h' root key :
  sameMarkup h h' → key ∈ markupKeys → createElMap h root key = createElMap h' root key.
Proof.
  intros Hs Hkey. unfold createElMap.
  rewrite (sameMarkup_querySelectorAll h h') by done.
  by apply foldl_registerEl_sameMarkup.
Qed.

Lemma sameMarkup_children h h' el : sameMarkup h h' → children h el = children h' el.
Proof.
  intros Hs. unfold children. destruct (Hs el) as (_ & Hc & _).
  destruct (h !! el) as [nd|], (h' !! el) as [nd'|]; simpl in Hc; try done.
  injection Hc as ->. apply list_filter_iff. intros c.
  by rewrite (sameMarkup_isElement h h').
Qed.

(** The validator reads the tree and authored attributes only. *)
Lemma validMarkup_sameMarkup h h' root :
  sameMarkup h h' → validMarkup h root → validMarkup h' root.
Proof.
  intros Hs [Hsome Hslots]. unfold validMarkup.
  rewrite <-(sameMarkup_querySelectorAll h h') by (done || is_markup).
  split; [done |]. intros slot Hslot.
  destruct (Hslots slot Hslot) as (Hid & Hlen & Hchild).
  rewrite <-(sameMarkup_children h h') by done.
  destruct (Hs slot) as (_ & _ & Hd). rewrite <-Hd by is_markup.
  split_and!; [done | done |]. intros child Hin.
  destruct (Hs child) as (_ & _ & Hd'). rewrite <-Hd' by is_markup. by apply Hchild.
Qed.

(** A run of [createSwapy] that returns: the validator found the markup
    valid and left no trace, the tagger ran, and the instance was built
    over the tagged store. *)
Lemma createSwapy_returned root userConfig pluginKey w w' swapy :
  createSwapy root userConfig pluginKey w = (w', Returned swapy) →
  ∃ rootEl, root = Some rootEl ∧ validMarkup (dom w) rootEl ∧
    addVeloxiDataAttributes rootEl (mergeConfig userConfig) pluginKey w
    = (w', Returned pluginKey) ∧
    swapy = mkSwapy rootEl (_createSlotElMap (dom w') rootEl)
                    (_createItemElMap (dom w') rootEl) None None.
Proof.
  destruct root as [rootEl|]; simpl; [| done]. intros Hrun. exists rootEl.
  destruct (validate_reports rootEl w) as (w1 & Hv & Hd & Hm & Hi & Hc).
  unfold bind at 1 in Hrun. rewrite Hv in Hrun. simpl in Hrun.
  case_bool_decide as Hvalid; simpl in Hrun; [| done].
  rewrite Hvalid, app_nil_r in Hc. apply World_eq in Hd as ->; [| done..].
  destruct (addVeloxiDataAttributes_run rootEl (mergeConfig userConfig) pluginKey w)
    as (w2 & Htag & _).
  unfold bind at 1 in Hrun. rewrite Htag in Hrun.
  unfold newSwapy, bind, getDom, ret in Hrun. injection Hrun as <- <-.
  split_and!; [done | by apply validateDiagnostics_nil | done | done].
Qed.

(** What a successful [createSwapy] leaves.  The markup was valid and still
    is; the store differs from the one it started with by the tagger's
    attributes only; nothing was printed and the host was not called; and
    the registries of the instance are those of the authored markup. *)
Theorem createSwapy_builds_over_authored_markup root userConfig pluginKey w w' swapy :
  createSwapy root userConfig pluginKey w = (w', Returned swapy) →
  ∃ rootEl, root = Some rootEl ∧ _rootEl swapy = rootEl ∧
    validMarkup (dom w) rootEl ∧ validMarkup (dom w') rootEl ∧
    sameMarkup (dom w) (dom w') ∧
    console w' = console w ∧ invoked w' = invoked w ∧
    _slotElMap swapy = createElMap (dom w) rootEl "swapySlot" ∧
    _itemElMap swapy = createElMap (dom w) rootEl "swapyItem".
Proof.
  intros (rootEl & -> & Hvalid & Htag & ->)%createSwapy_returned. exists rootEl.
  destruct (addVeloxiDataAttributes_run rootEl (mergeConfig userConfig) pluginKey w)
    as (w2 & Hrun & Hd & _ & Hc & Hi).
  rewrite Htag in Hrun. injection Hrun as <-.
  destruct (addVeloxiDataAttributes_tags (dom w) rootEl (mergeConfig userConfig) pluginKey)
    as [Hws _].
  assert (sameMarkup (dom w) (dom w')) as Hsame
    by (rewrite Hd; by apply applyWrites_sameMarkup).
  split_and!; [done | done | done | by eapply validMarkup_sameMarkup | done | done | done | |];
    simpl; unfold _createSlotElMap, _createItemElMap;
    symmetry; apply createElMap_sameMarkup; (done || is_markup).
Qed.

Lemma createSwapy_builds_over_authored_markup_witness :
  ∃ w' swapy, createSwapy (Some 0) (mkPartialConfig None None) "k" demoWorld = (w', Returned swapy) ∧
    _slotElMap swapy !! "left" = Some 1 ∧ _itemElMap swapy !! "y" = Some 4.
Proof.
  destruct (createSwapy (Some 0) (mkPartialConfig None None) "k" demoWorld) as [w' [swapy|e]] eqn:Hrun;
    [| by vm_compute in Hrun].
  exists w', swapy. split; [done |].
  destruct (createSwapy_builds_over_authored_markup _ _ _ _ _ _ Hrun)
    as (rootEl & [= <-] & _ & _ & _ & _ & _ & _ & -> & ->).
  split; vm_compute; reflexivity.
Defined.

(** Right after construction the watcher has nothing to do: the tagger has
    marked every item under the root, so a mutation batch that reports no
    new markup leaves the store, the traces and the instance as they are. *)
Theorem fresh_instance_ignores_mutations root userConfig pluginKey w w' swapy records :
  createSwapy root userConfig pluginKey w = (w', Returned swapy) →
  untaggedItems (dom w') (_rootEl swapy) = [] ∧
  onMutations records swapy w' = (w', Returned swapy).
Proof.
  intros (rootEl & -> & _ & Htag & ->)%createSwapy_returned.
  assert (untaggedItems (dom w') rootEl = []) as Hnone; [| split; [done |]].
  - destruct (addVeloxiDataAttributes_run rootEl (mergeConfig userConfig) pluginKey w)
      as (w2 & Hrun & Hd & _).
    rewrite Htag in Hrun. injection Hrun as <-. rewrite Hd.
    destruct (addVeloxiDataAttributes_tags (dom w) rootEl (mergeConfig userConfig) pluginKey)
      as [Hws _].
    apply untaggedItems_after_writes; [done |].
    intros item (_ & Hitem & Hbelow)%untaggedItems_elem_of. exists "item".
    apply elem_of_taggerWrites. right; right; left. exists item.
    split; [by apply querySelectorAll_elem_of |]. apply elem_of_viewWrites. by left.
  - by apply onMutations_settled.
Qed.

Lemma fresh_instance_ignores_mutations_witness :
  ∃ w' swapy, createSwapy (Some 0) (mkPartialConfig None None) "k" demoWorld
              = (w', Returned swapy) ∧
    onMutations [mkMutationRecord childList] swapy w' = (w', Returned swapy).
Proof.
  destruct (createSwapy (Some 0) (mkPartialConfig None None) "k" demoWorld)
    as [w' [swapy|e]] eqn:Hrun; [| by vm_compute in Hrun].
  exists w', swapy. split; [done |].
  eapply fresh_instance_ignores_mutations, Hrun.
Defined.

(** The watcher settles.  Once a batch with a child-list record has been
    handled, every item under the root is tagged, and a further batch over
    the same store writes nothing and keeps the registries. *)
Theorem watcher_settles records records' this w w1 this1 :
  existsb isChildList records = true →
  onMutations records this w = (w1, Returned this1) →
  untaggedItems (dom w1) (_rootEl this1) = [] ∧
  onMutations records' this1 w1 = (w1, Returned this1).
Proof.
  intros Hchild Hrun.
  assert (untaggedItems (dom w1) (_rootEl this1) = []) as Hnone;
    [| split; [done | by apply onMutations_settled]].
  unfold onMutations in Hrun. rewrite Hchild in Hrun.
  destruct (resyncItems_run (_rootEl this) w) as (w2 & Hsync & Hd & _).
  unfold bind at 1 in Hrun. rewrite Hsync in Hrun.
  assert (w1 = w2 ∧ _rootEl this1 = _rootEl this) as [-> ->].
  { destruct (bool_decide _); unfold bind, getDom, ret in Hrun;
      by injection Hrun as <- <-. }
  rewrite Hd. apply untaggedItems_after_writes; [apply resyncItems_tags_writes |].
  intros item Hitem. exists "item". apply elem_of_resyncWrites. exists item.
  split; [done |]. apply elem_of_itemWrites. by left.
Qed.

Lemma watcher_settles_witness :
  let this := mkSwapy 0 (_createSlotElMap lateDom 0) (_createItemElMap lateDom 0) None None in
  let run := onMutations [mkMutationRecord childList] this (mkWorld lateDom [] [] []) in
  ∃ this1, run.2 = Returned this1 ∧
    onMutations [mkMutationRecord childList] this1 run.1 = (run.1, Returned this1).
Proof.
  intros this run.
  destruct run as [w1 [this1|e]] eqn:Hrun; [| by vm_compute in Hrun].
  exists this1. split; [done |].
  eapply (watcher_settles [mkMutationRecord childList]); [reflexivity | exact Hrun].
Defined.

Lemma addVeloxiDataAttributes_sameMarkup root config pluginKey w w' key :
  addVeloxiDataAttributes root config pluginKey w = (w', Returned key) →
  sameMarkup (dom w) (dom w') ∧ console w' = console w ∧ invoked w' = invoked w.
Proof.
  intros Htag.
  destruct (addVeloxiDataAttributes_run root config pluginKey w)
    as (w2 & Hrun & Hd & _ & Hc & Hi).
  rewrite Htag in Hrun. injection Hrun as <- _.
  destruct (addVeloxiDataAttributes_tags (dom w) root config pluginKey) as [Hws _].
  split; [| done]. rewrite Hd. by apply applyWrites_sameMarkup.
Qed.

(** Over valid markup [createSwapy] returns: the validator leaves no trace
    and the instance is built over the tagged store. *)
Lemma createSwapy_valid rootEl userConfig pluginKey w :
  validMarkup (dom w) rootEl →
  ∃ w', addVeloxiDataAttributes rootEl (mergeConfig userConfig) pluginKey w
        = (w', Returned pluginKey) ∧
    createSwapy (Some rootEl) userConfig pluginKey w
    = (w', Returned (mkSwapy rootEl (_createSlotElMap (dom w') rootEl)
                             (_createItemElMap (dom w') rootEl) None None)).
Proof.
  intros Hvalid%validateDiagnostics_nil.
  destruct (validate_reports rootEl w) as (w1 & Hv & Hd & Hm & Hi & Hc).
  rewrite Hvalid, app_nil_r in Hc. apply World_eq in Hd as ->; [| done..].
  rewrite Hvalid in Hv.
  destruct (addVeloxiDataAttributes_run rootEl (mergeConfig userConfig) pluginKey w)
    as (w' & Htag & _).
  exists w'. split; [done |]. simpl. unfold bind at 1. rewrite Hv. simpl.
  unfold bind at 1. by rewrite Htag.
Qed.

(** Construction can be repeated.  Where [createSwapy] has returned, a
    second call on the same root, with whatever options and instance key,
    returns as well: the tagger's attributes do not disturb the validator,
    nothing is printed, and the new instance has the registries of the
    first. *)
Theorem construction_is_repeatable root userConfig pluginKey userConfig' pluginKey'
    w w' swapy :
  createSwapy root userConfig pluginKey w = (w', Returned swapy) →
  ∃ w'' swapy', createSwapy root userConfig' pluginKey' w' = (w'', Returned swapy') ∧
    sameMarkup (dom w') (dom w'') ∧ console w'' = console w' ∧
    _rootEl swapy' = _rootEl swapy ∧
    _slotElMap swapy' = _slotElMap swapy ∧ _itemElMap swapy' = _itemElMap swapy.
Proof.
  intros (rootEl & -> & Hvalid & Htag & ->)%createSwapy_returned.
  apply addVeloxiDataAttributes_sameMarkup in Htag as (Hsame & _ & _).
  destruct (createSwapy_valid rootEl userConfig' pluginKey' w') as (w'' & Htag' & Hrun);
    [by eapply validMarkup_sameMarkup |].
  apply addVeloxiDataAttributes_sameMarkup in Htag' as (Hsame' & Hc & _).
  eexists w'', _. split; [exact Hrun |]. simpl.
  split_and!; [done | done | done | |];
    unfold _createSlotElMap, _createItemElMap;
    symmetry; apply createElMap_sameMarkup; (done || is_markup).
Qed.

Lemma construction_is_repeatable_witness :
  ∃ w' swapy w'' swapy',
    createSwapy (Some 0) (mkPartialConfig None None) "k" demoWorld = (w', Returned swapy) ∧
    createSwapy (Some 0) (mkPartialConfig (Some None) (Some (Some false))) "l" w'
    = (w'', Returned swapy') ∧
    _slotElMap swapy' = _slotElMap swapy.
Proof.
  destruct (createSwapy (Some 0) (mkPartialConfig None None) "k" demoWorld)
    as [w' [swapy|e]] eqn:Hrun; [| by vm_compute in Hrun].
  destruct (construction_is_repeatable _ _ _ (mkPartialConfig (Some None) (Some (Some false))) "l"
              _ _ _ Hrun) as (w'' & swapy' & Hrun' & _ & _ & _ & Hslots & _).
  exists w', swapy, w'', swapy'. split; [exact eq_refl |]. split; [exact Hrun' | exact Hslots].
Defined.
